(** * Modrinth automated version updater: a model of [main.py]

    The script adds a target game version to the supported-version list of
    selected releases of a set of projects.  This development embeds the
    script as Rocq functions and states its properties.

    Conventions of the embedding.

    - A Python [str] is a [string]; the character with code [n] stands for
      the code point U+00nn, so the labels covered are those whose code
      points are below 256.  Comparison of strings is the comparison of
      their code points, as in Python.
    - A Python [int] is a [Z]; [int()] keeps the default limit of the
      interpreter on the number of digits it converts.
    - An exception is a value of [exn]; a function that can raise returns a
      sum, and the driver threads its state (requests issued, lines printed,
      counter) explicitly.
    - The iteration order of a Python [set] is not fixed by the language:
      [list(set(xs))] is a parameter of the model, constrained to list every
      distinct element of [xs] once. *)

From Stdlib Require Import List String Ascii ZArith Bool Arith Lia.
From Stdlib Require Import Permutation Sorted.
Import ListNotations.

Local Open Scope string_scope.
Local Open Scope list_scope.

(* ================================================================== *)
(** ** Exceptions and results *)

Inductive exn : Type :=
| ValueError                (* int() on a string that is no decimal number *)
| TypeError                 (* '<' between an int and a str *)
| SystemExit (code : Z).    (* sys.exit(code) *)

Inductive result (A : Type) : Type :=
| Ok (a : A)
| Raise (e : exn).
Arguments Ok {A} a.
Arguments Raise {A} e.

Definition bind {A B} (m : result A) (f : A -> result B) : result B :=
  match m with
  | Ok a => f a
  | Raise e => Raise e
  end.

Notation "x <- m ;; k" := (bind m (fun x => k))
  (at level 61, m at next level, right associativity).

Fixpoint mapM {A B} (f : A -> result B) (l : list A) : result (list B) :=
  match l with
  | [] => Ok []
  | x :: xs => y <- f x ;; ys <- mapM f xs ;; Ok (y :: ys)
  end.

(* ================================================================== *)
(** ** Python string primitives used by [version_key] *)

Module Py.

(** Code point of a character. *)
Definition ord (c : ascii) : N := N_of_ascii c.

(** The characters of the separator class [[.-]]. *)
Definition is_sep (c : ascii) : bool :=
  (ord c =? 46)%N || (ord c =? 45)%N.

(** [re.split(r'[.-]', v)]: the maximal separator-free pieces of [v], in
    order; [n] separators give [n + 1] pieces, empty pieces included. *)
Fixpoint re_split (v : string) : list string :=
  match v with
  | EmptyString => [EmptyString]
  | String c r =>
      if is_sep c then EmptyString :: re_split r
      else match re_split r with
           | t :: ts => String c t :: ts
           | [] => [String c EmptyString]
           end
  end.

(** Characters with Numeric_Type=Decimal: below U+0100 these are '0'..'9'. *)
Definition is_decimal_char (c : ascii) : bool :=
  (48 <=? ord c)%N && (ord c <=? 57)%N.

(** Characters with Numeric_Type=Digit or Decimal: below U+0100 these are
    '0'..'9' and the superscripts U+00B2, U+00B3 and U+00B9. *)
Definition is_digit_char (c : ascii) : bool :=
  is_decimal_char c
  || (ord c =? 178)%N || (ord c =? 179)%N || (ord c =? 185)%N.

Fixpoint all_chars (p : ascii -> bool) (s : string) : bool :=
  match s with
  | EmptyString => true
  | String c r => p c && all_chars p r
  end.

(** [str.isdigit()]: at least one character, and every one a digit. *)
Definition isdigit (s : string) : bool :=
  match s with
  | EmptyString => false
  | _ => all_chars is_digit_char s
  end.

(** [str.isdecimal()], the test the specification words ("composed entirely
    of decimal digits"). *)
Definition isdecimal (s : string) : bool :=
  match s with
  | EmptyString => false
  | _ => all_chars is_decimal_char s
  end.

Fixpoint decimal_value (acc : Z) (s : string) : Z :=
  match s with
  | EmptyString => acc
  | String c r => decimal_value (10 * acc + (Z.of_N (ord c) - 48)) r
  end.

(** The longest string of digits [int] converts: the default of
    [sys.get_int_max_str_digits()].  Leading zeros count. *)
Definition int_max_str_digits : nat := 4300.
Arguments int_max_str_digits : simpl never.

(** [int(s)] on the strings that reach it here (no sign, blank or
    underscore): the number read in base ten when every character is a
    decimal digit and there are no more than [int_max_str_digits] of
    them, [ValueError] otherwise. *)
Definition int (s : string) : result Z :=
  if isdecimal s then
    if (String.length s <=? int_max_str_digits)%nat
    then Ok (decimal_value 0 s)
    else Raise ValueError
  else Raise ValueError.

End Py.

(* ================================================================== *)
(** ** VersionKey *)

(** An element of a key: the list [version_key] returns mixes [int] and
    [str] values. *)
Inductive token : Type :=
| TInt (n : Z)
| TStr (s : string).

Definition key := list token.

(** [int(x) if x.isdigit() else x] *)
Definition coerce (x : string) : result token :=
  if Py.isdigit x then n <- Py.int x ;; Ok (TInt n) else Ok (TStr x).

(** [version_key(v)]:
    [[int(x) if x.isdigit() else x for x in re.split(r'[.-]', v)]] *)
Definition version_key (v : string) : result key :=
  mapM coerce (Py.re_split v).

(** The key as the specification words it: a token composed entirely of
    decimal digits becomes an integer, every other token stays a string. *)
Definition toKey_spec (v : string) : key :=
  map (fun x => if Py.isdecimal x then TInt (Py.decimal_value 0 x) else TStr x)
      (Py.re_split v).

(** Characters of the ASCII range. *)
Definition is_ascii (c : ascii) : bool := (Py.ord c <? 128)%N.

(** A piece that [int] accepts if [isdigit] lets it through: decimal
    digits only, and no more of them than [int] converts. *)
Definition convertible (x : string) : Prop :=
  Py.isdigit x = true ->
  Py.isdecimal x = true /\
  (String.length x <= Py.int_max_str_digits)%nat.

(** The superscript two, U+00B2. *)
Definition sup2 : string := String (ascii_of_nat 178) EmptyString.

(* ================================================================== *)
(** ** Comparison of keys, as Python compares lists *)

(** [x == y] on key elements: an int never equals a str. *)
Definition token_eqb (x y : token) : bool :=
  match x, y with
  | TInt m, TInt n => (m =? n)%Z
  | TStr s, TStr t => String.eqb s t
  | _, _ => false
  end.

(** [x < y] on key elements: defined between two ints and between two
    strs, [TypeError] otherwise. *)
Definition token_lt (x y : token) : result bool :=
  match x, y with
  | TInt m, TInt n => Ok (m <? n)%Z
  | TStr s, TStr t => Ok (String.ltb s t)
  | _, _ => Raise TypeError
  end.

(** [a < b] on lists: the first position where the two differ decides, by
    [<] on the elements there; when one list is a prefix of the other the
    shorter one is the smaller. *)
Fixpoint key_lt (a b : key) : result bool :=
  match a, b with
  | [], [] => Ok false
  | [], _ :: _ => Ok true
  | _ :: _, [] => Ok false
  | x :: a', y :: b' => if token_eqb x y then key_lt a' b' else token_lt x y
  end.

(** [a] may stand before [b] in a sorted list: [b < a] is defined and
    false. *)
Definition key_le (a b : key) : Prop := key_lt b a = Ok false.

(** [a] and [b] can be compared without a [TypeError]. *)
Definition comparable (a b : key) : Prop := exists r, key_lt a b = Ok r.

(** Three-way comparison, used to reason about [key_lt]. *)
Definition token_cmp (x y : token) : option comparison :=
  match x, y with
  | TInt m, TInt n => Some (m ?= n)%Z
  | TStr s, TStr t => Some (String.compare s t)
  | _, _ => None
  end.

Fixpoint key_cmp (a b : key) : option comparison :=
  match a, b with
  | [], [] => Some Eq
  | [], _ :: _ => Some Lt
  | _ :: _, [] => Some Gt
  | x :: a', y :: b' =>
      match token_cmp x y with
      | Some Eq => key_cmp a' b'
      | r => r
      end
  end.

Definition is_lt (c : comparison) : bool :=
  match c with Lt => true | _ => false end.

(* ================================================================== *)
(** ** Sorting by key *)

(** Insertion of [x] in front of a sorted list of decorated elements: [x]
    goes behind the elements that are smaller ([y < x]) and in front of
    the first that is not, so that equal keys keep their input order. *)
Fixpoint insert {A} (x : key * A) (l : list (key * A))
  : result (list (key * A)) :=
  match l with
  | [] => Ok [x]
  | y :: ys =>
      b <- key_lt (fst y) (fst x) ;;
      if b then r <- insert x ys ;; Ok (y :: r) else Ok (x :: y :: ys)
  end.

Fixpoint sort_decorated {A} (l : list (key * A)) : result (list (key * A)) :=
  match l with
  | [] => Ok []
  | x :: xs => s <- sort_decorated xs ;; insert x s
  end.

(** Decoration: the key of every element, computed once, in list order. *)
Definition decorate {A} (f : A -> result key) (l : list A)
  : result (list (key * A)) :=
  mapM (fun x => k <- f x ;; Ok (k, x)) l.

(** [sorted(l, key=f)]: a stable sort that compares keys with [<] only and
    lets the exceptions of [f] and of [<] through. *)
Definition sorted {A} (f : A -> result key) (l : list A) : result (list A) :=
  d <- decorate f l ;; s <- sort_decorated d ;; Ok (map snd s).

(* ================================================================== *)
(** ** Data of the run *)

(** A release record of the catalog, with the fields the script reads. *)
Record release : Type := {
  id : string;
  name : string;
  version_number : string;
  game_versions : list string
}.

(** The configuration: the JSON object of [main.json], in iteration order,
    from project slug to the release labels to update. *)
Definition config := list (string * list string).

(** What reading [main.json] gives. *)
Inductive config_file : Type :=
| FileNotFoundError
| JSONDecodeError
| Loaded (c : config).

(** Answer of the remote catalog to one request; [RequestException] covers
    transport errors and the non-2xx statuses [raise_for_status] rejects. *)
Inductive response (A : Type) : Type :=
| Success (a : A)
| RequestException (e : string).
Arguments Success {A} a.
Arguments RequestException {A} e.

Definition headers := list (string * string).

(** Effects on the outside world, in the order they happen. *)
Inductive event : Type :=
| Get (slug : string) (r : response (list release))
| Patch (version_id : string) (new_game_versions : list string)
        (r : response unit)
| Sleep.

(** Lines written to standard output. Fixed texts are kept as they are in
    the source (in UTF-8); lines built from data keep the data. *)
Inductive line : Type :=
| Text (s : string)
| TargetLine (target : string)
| ProcessingLine (slug : string)
| NetworkErrorLine (slug e : string)
| NoMatchingLine (slug : string) (labels : list string)
| SkippingLine (name number target : string)
| UpdatingLine (name number : string) (old new : list string)
| FailedLine (version_id e : string)
| DoneLine (total_updated : nat).

(** The world a run starts in: command line, environment, configuration
    file, and the catalog, whose answers may depend on everything that
    happened before. *)
Record world : Type := {
  argv : list string;
  MODRINTH_TOKEN : option string;
  main_json : config_file;
  requests_get : list event -> string -> headers -> response (list release);
  requests_patch :
    list event -> string -> list string -> headers -> response unit
}.

Record state : Type := {
  trace : list event;
  stdout : list line
}.

Definition initial : state := {| trace := []; stdout := [] |}.

(** A step of the script: it may print, talk to the catalog, and end by an
    exception; the state reached is kept in both cases. *)
Definition M (A : Type) : Type := state -> result A * state.

Definition ret {A} (a : A) : M A := fun s => (Ok a, s).

Definition raise {A} (e : exn) : M A := fun s => (Raise e, s).

Definition bindM {A B} (m : M A) (f : A -> M B) : M B :=
  fun s =>
    match m s with
    | (Ok a, s') => f a s'
    | (Raise e, s') => (Raise e, s')
    end.

Notation "x <~ m ;; k" := (bindM m (fun x => k))
  (at level 61, m at next level, right associativity).
Notation "m ;;; k" := (bindM m (fun _ => k))
  (at level 61, right associativity).

Definition lift {A} (r : result A) : M A := fun s => (r, s).

Definition print (l : line) : M unit :=
  fun s => (Ok tt, {| trace := trace s; stdout := stdout s ++ [l] |}).

Definition emit (e : event) : M unit :=
  fun s => (Ok tt, {| trace := trace s ++ [e]; stdout := stdout s |}).

Definition history : M (list event) := fun s => (Ok (trace s), s).

(** [x in l] for a list of strings. *)
Definition mem (x : string) (l : list string) : bool :=
  existsb (String.eqb x) l.

(** Status of the process when the script ends: 0 on a normal return, the
    argument of [sys.exit], and 1 for an exception nobody caught. *)
Definition exit_status (r : result unit) : Z :=
  match r with
  | Ok _ => 0
  | Raise (SystemExit c) => c
  | Raise _ => 1
  end.

(* ================================================================== *)
(** ** The script *)

Definition API_BASE : string := "https://api.modrinth.com/v2".
Definition CONFIG_FILE : string := "main.json".

Definition msg_usage : string :=
  "❌ ERROR: Please provide the target Minecraft version as an argument.".
Definition msg_example : string := "   Example: python main.py 1.21.9".
Definition msg_start : string :=
  "🚀 Starting Modrinth Automated Version Updater...".
Definition msg_no_token : string :=
  "❌ ERROR: MODRINTH_TOKEN environment variable not set.".
Definition msg_config_not_found : string :=
  "❌ ERROR: Configuration file '" ++ CONFIG_FILE ++ "' not found.".
Definition msg_config_invalid : string :=
  "❌ ERROR: Could not parse '" ++ CONFIG_FILE
  ++ "'. Please check for JSON errors.".
Definition msg_no_projects : string :=
  "ℹ️  No projects found in 'main.json' to update. Exiting.".
Definition msg_rule : string := "--------------------".

Section Script.

(** [list(set(xs))]: the elements of [xs] in the order the set iterates. *)
Variable list_set : list string -> list string.

Variable w : world.

(** [get_auth_headers()]: an unset and an empty token are both refused. *)
Definition get_auth_headers : M headers :=
  match MODRINTH_TOKEN w with
  | None | Some EmptyString =>
      print (Text msg_no_token) ;;; raise (SystemExit 1)
  | Some tok =>
      ret [("Authorization", ("Bearer " ++ tok)%string);
           ("User-Agent", "AutomatedVersionUpdater/1.2");
           ("Content-Type", "application/json")]
  end.

(** [load_config()] *)
Definition load_config : M config :=
  match main_json w with
  | Loaded c => ret c
  | FileNotFoundError =>
      print (Text msg_config_not_found) ;;; raise (SystemExit 1)
  | JSONDecodeError =>
      print (Text msg_config_invalid) ;;; raise (SystemExit 1)
  end.

(** [get_project_versions(slug, headers)] *)
Definition get_project_versions (slug : string) (h : headers)
  : M (list release) :=
  past <~ history ;;
  let r := requests_get w past slug h in
  emit (Get slug r) ;;;
  match r with
  | Success rs => ret rs
  | RequestException e => print (NetworkErrorLine slug e) ;;; ret []
  end.

(** [patch_project_version(version_id, new_game_versions, headers)] *)
Definition patch_project_version
  (version_id : string) (new_game_versions : list string) (h : headers)
  : M bool :=
  past <~ history ;;
  let r := requests_patch w past version_id new_game_versions h in
  emit (Patch version_id new_game_versions r) ;;;
  match r with
  | Success _ => ret true
  | RequestException e => print (FailedLine version_id e) ;;; ret false
  end.

(** The merge-and-sort step:
    [sorted(list(set(current_game_versions + [target])), key=version_key)] *)
Definition merge (current_game_versions : list string) (target : string)
  : result (list string) :=
  sorted version_key (list_set (current_game_versions ++ [target])).

(** Body of the loop over [versions_to_patch]; returns [total_updated]. *)
Definition update_release (target : string) (h : headers)
  (total_updated : nat) (version_data : release) : M nat :=
  let version_name := name version_data in
  let version_number := version_number version_data in
  let version_id := id version_data in
  let current_game_versions := game_versions version_data in
  if mem target current_game_versions then
    print (SkippingLine version_name version_number target) ;;;
    ret total_updated
  else
    new_game_versions <~ lift (merge current_game_versions target) ;;
    print (UpdatingLine version_name version_number
             current_game_versions new_game_versions) ;;;
    success <~ patch_project_version version_id new_game_versions h ;;
    let total_updated := if success then S total_updated else total_updated in
    emit Sleep ;;;
    ret total_updated.

(** [for x in l: total = body(total, x)] *)
Fixpoint for_each {A} (body : nat -> A -> M nat) (l : list A) (total : nat)
  : M nat :=
  match l with
  | [] => ret total
  | x :: xs => total' <~ body total x ;; for_each body xs total'
  end.

(** The releases of a project whose label is configured. *)
Definition select (target_project_versions : list string)
  (all_mod_versions : list release) : list release :=
  filter (fun v => mem (version_number v) target_project_versions)
         all_mod_versions.

(** Body of the loop over the projects. *)
Definition update_project (target : string) (h : headers)
  (total_updated : nat) (item : string * list string) : M nat :=
  let '(slug, target_project_versions) := item in
  print (ProcessingLine slug) ;;;
  all_mod_versions <~ get_project_versions slug h ;;
  match all_mod_versions with
  | [] => ret total_updated
  | _ =>
      let versions_to_patch :=
        select target_project_versions all_mod_versions in
      (match versions_to_patch with
       | [] => print (NoMatchingLine slug target_project_versions)
       | _ => ret tt
       end) ;;;
      total_updated <~
        for_each (update_release target h) versions_to_patch total_updated ;;
      print (Text msg_rule) ;;;
      ret total_updated
  end.

(** [main()] *)
Definition main : M unit :=
  if (List.length (argv w) <? 2)%nat then
    print (Text msg_usage) ;;;
    print (Text msg_example) ;;;
    raise (SystemExit 1)
  else
    let target_mc_version := nth 1 (argv w) EmptyString in
    print (Text msg_start) ;;;
    h <~ get_auth_headers ;;
    config <~ load_config ;;
    let projects_to_update := config in
    match projects_to_update with
    | [] => print (Text msg_no_projects) ;;; raise (SystemExit 0)
    | _ =>
        print (TargetLine target_mc_version) ;;;
        total_updated <~
          for_each (update_project target_mc_version h) projects_to_update 0 ;;
        print (DoneLine total_updated)
    end.

(** One run of the process from the initial state. *)
Definition run : Z * state :=
  let '(r, s) := main initial in (exit_status r, s).

End Script.

(* ================================================================== *)
(** ** Notions the properties are stated with *)

(** What the language promises of [list(set(xs))]: every element of [xs],
    each once, in some order. *)
Definition set_listing (list_set : list string -> list string) : Prop :=
  forall l, NoDup (list_set l) /\ (forall x, In x (list_set l) <-> In x l).

(** Two iteration orders that qualify: the distinct elements in the order
    of their last occurrence, and the same in reverse. *)
Definition in_order (l : list string) : list string := nodup string_dec l.

Definition reversed (l : list string) : list string :=
  rev (nodup string_dec l).

(** Order of decorated elements: the order of their keys. *)
Definition dle {A} (p q : key * A) : Prop := key_le (fst p) (fst q).

(** [x] may stand before [y] when sorting by [f]. *)
Definition le_by {A} (f : A -> result key) (x y : A) : Prop :=
  exists kx ky, f x = Ok kx /\ f y = Ok ky /\ key_le kx ky.

(** [a] may stand before [b] in a list sorted by [version_key]. *)
Definition version_le : string -> string -> Prop := le_by version_key.

(** Number of write requests of a trace the catalog accepted. *)
Fixpoint successes (tr : list event) : nat :=
  match tr with
  | [] => 0
  | Patch _ _ (Success _) :: t => S (successes t)
  | _ :: t => successes t
  end.

(** A write request of a run is accounted for when it carries the merged
    list of a release that was fetched for a configured project, bears a
    configured label and did not list the target yet. *)
Definition accounted (list_set : list string -> list string)
  (c : config) (target : string) (tr : list event)
  (version_id : string) (new_game_versions : list string) : Prop :=
  exists slug labels rs v,
    In (slug, labels) c /\
    In (Get slug (Success rs)) tr /\
    In v (select labels rs) /\
    mem target (game_versions v) = false /\
    id v = version_id /\
    merge list_set (game_versions v) target = Ok new_game_versions.

(** The startup checks of [main] all pass. *)
Definition startup_ok (w : world) (target : string) (c : config) : Prop :=
  (2 <= List.length (argv w))%nat /\
  nth 1 (argv w) EmptyString = target /\
  (exists tok, MODRINTH_TOKEN w = Some tok /\ tok <> EmptyString) /\
  main_json w = Loaded c.

Definition token_missing (w : world) : Prop :=
  MODRINTH_TOKEN w = None \/ MODRINTH_TOKEN w = Some EmptyString.

(** Every write request of [tr] is accounted for. *)
Definition patches_accounted (list_set : list string -> list string)
  (target : string) (c : config) (tr : list event) : Prop :=
  forall vid new r,
    In (Patch vid new r) tr -> accounted list_set c target tr vid new.

(** A merge toward [target] raised [e]. *)
Definition merge_raised (list_set : list string -> list string)
  (target : string) (e : exn) : Prop :=
  exists cur, merge list_set cur target = Raise e.

(** [post x Q E]: the step result [x] satisfies [Q] when it returned and
    [E] when it raised. *)
Definition post {A} (x : result A * state)
  (Q : A -> state -> Prop) (E : exn -> state -> Prop) : Prop :=
  match x with
  | (Ok a, s') => Q a s'
  | (Raise e, s') => E e s'
  end.

(** Invariant of the counter in the loops: it follows the accepted
    writes, up to the offsets [a] and [b] of the starting point. *)
Definition tally (a b : nat) (t : nat) (s : state) : Prop :=
  t + a = successes (trace s) + b.

(** Invariant of the trace in the loops. *)
Definition audited (list_set : list string -> list string)
  (target : string) (c : config) (s : state) : Prop :=
  patches_accounted list_set target c (trace s).

(** The only way a loop ends early: a merge raised, and the trace is
    still audited. *)
Definition crashed (list_set : list string -> list string)
  (target : string) (c : config) (e : exn) (s : state) : Prop :=
  audited list_set target c s /\ merge_raised list_set target e.

(** The merge step applied to its own result gives that result again. *)
Definition merge_idempotent (list_set : list string -> list string)
  (cur : list string) (target : string) : Prop :=
  (out <- merge list_set cur target ;; merge list_set out target)
  = merge list_set cur target.

(* ================================================================== *)
(** ** Sample worlds *)

(** A world whose catalog answers the same whatever happened before:
    [catalog] gives the releases of each project and [accept] tells which
    releases can be written. *)
Definition fixed_world (args : list string) (token : option string)
  (file : config_file) (catalog : string -> response (list release))
  (accept : string -> bool) : world :=
  {| argv := args;
     MODRINTH_TOKEN := token;
     main_json := file;
     requests_get := fun _ slug _ => catalog slug;
     requests_patch := fun _ version_id _ _ =>
       if accept version_id then Success tt
       else RequestException "503 Server Error" |}.

Definition a_release (i label : string) (gv : list string) : release :=
  {| id := i; name := "Mod " ++ label; version_number := label;
     game_versions := gv |}.

(** Project [modA] with one release [1.0.0] supporting [gv]; nothing else
    is known to the catalog. *)
Definition one_project (gv : list string) (slug : string)
  : response (list release) :=
  if String.eqb slug "modA" then Success [a_release "idA" "1.0.0" gv]
  else RequestException "404 Client Error".

(** The end-to-end scenario: [modA]/[1.0.0] supports [1.19.4] and the
    target is [1.20.1]. *)
Definition scenario : world :=
  fixed_world ["main.py"; "1.20.1"] (Some "token")
    (Loaded [("modA", ["1.0.0"])]) (one_project ["1.19.4"]) (fun _ => true).

(** The same with a release that lists the target already. *)
Definition up_to_date : world :=
  fixed_world ["main.py"; "1.20.1"] (Some "token")
    (Loaded [("modA", ["1.0.0"])]) (one_project ["1.19.4"; "1.20.1"])
    (fun _ => true).

(** A release that supports the release candidate [1.21-rc1], to be
    extended with [1.21.1]. *)
Definition prerelease : world :=
  fixed_world ["main.py"; "1.21.1"] (Some "token")
    (Loaded [("modA", ["1.0.0"])]) (one_project ["1.21-rc1"]) (fun _ => true).

(** Three releases of [modA], two of them configured; [modB] comes first
    in the configuration and cannot be listed. *)
Definition three_releases (slug : string) : response (list release) :=
  if String.eqb slug "modA" then
    Success [a_release "id10" "1.0" ["1.19.4"];
             a_release "id11" "1.1" ["1.19.4"];
             a_release "id20" "2.0" ["1.19.4"]]
  else RequestException "Connection refused".

Definition two_projects : world :=
  fixed_world ["main.py"; "1.20.1"] (Some "token")
    (Loaded [("modB", ["0.1"]); ("modA", ["1.0"; "2.0"])])
    three_releases (fun i => negb (String.eqb i "id20")).

(** [modB] cannot be listed; of [modA], the first configured release
    can be extended with the target and the second supports a release
    candidate. *)
Definition mixed_releases (slug : string) : response (list release) :=
  if String.eqb slug "modA" then
    Success [a_release "id10" "1.0" ["1.19.4"];
             a_release "id20" "2.0" ["1.20-rc1"]]
  else RequestException "Connection refused".

Definition unlisted_then_mixed : world :=
  fixed_world ["main.py"; "1.20.1"] (Some "token")
    (Loaded [("modB", ["0.1"]); ("modA", ["1.0"; "2.0"])])
    mixed_releases (fun _ => true).

(* ================================================================== *)
(** ** Notions for the further properties *)

(** Release identifiers written to, in the order of the writes. *)
Fixpoint patched_ids (tr : list event) : list string :=
  match tr with
  | [] => []
  | Patch i _ _ :: t => i :: patched_ids t
  | _ :: t => patched_ids t
  end.

(** Projects whose releases were requested, in the order of the requests. *)
Fixpoint fetched_slugs (tr : list event) : list string :=
  match tr with
  | [] => []
  | Get slug _ :: t => slug :: fetched_slugs t
  | _ :: t => fetched_slugs t
  end.

(** Throttling of a trace read from left to right, [pending] telling
    whether the last event was a write: a write is followed at once by a
    pause, and a pause follows nothing but a write. *)
Fixpoint throttled_from (pending : bool) (tr : list event) : bool :=
  match tr with
  | [] => negb pending
  | Patch _ _ _ :: t => negb pending && throttled_from true t
  | Sleep :: t => pending && throttled_from false t
  | Get _ _ :: t => negb pending && throttled_from false t
  end.

Definition throttled (tr : list event) : bool := throttled_from false tr.

(** The release does not list the target yet. *)
Definition lacks (target : string) (v : release) : bool :=
  negb (mem target (game_versions v)).

(** A run of decimal digits that [int] converts. *)
Definition short_number (x : string) : bool :=
  Py.isdecimal x && (String.length x <=? Py.int_max_str_digits)%nat.

(** A label made of runs of decimal digits, none longer than [int]
    converts, separated by [.] or [-]. *)
Definition numeric_label (v : string) : bool :=
  forallb short_number (Py.re_split v).

(** Every label the catalog can return is numeric. *)
Definition numeric_catalog (w : world) : Prop :=
  forall past slug h rs v x,
    requests_get w past slug h = Success rs ->
    In v rs -> In x (game_versions v) -> numeric_label x = true.

(** The label with every [-] turned into [.]. *)
Fixpoint dotted (v : string) : string :=
  match v with
  | EmptyString => EmptyString
  | String c r =>
      String (if (Py.ord c =? 45)%N then "."%char else c) (dotted r)
  end.

(** The headers [get_auth_headers] builds from the token [tok]. *)
Definition auth_headers (tok : string) : headers :=
  [("Authorization", ("Bearer " ++ tok)%string);
   ("User-Agent", "AutomatedVersionUpdater/1.2");
   ("Content-Type", "application/json")].

Fixpoint headers_eqb (a b : headers) : bool :=
  match a, b with
  | [], [] => true
  | (k, v) :: a', (k', v') :: b' =>
      String.eqb k k' && String.eqb v v' && headers_eqb a' b'
  | _, _ => false
  end.

(** The world [w] with a catalog that turns down every request that does
    not come with exactly the headers [h]. *)
Definition expecting (h : headers) (w : world) : world :=
  {| argv := argv w;
     MODRINTH_TOKEN := MODRINTH_TOKEN w;
     main_json := main_json w;
     requests_get := fun past slug h' =>
       if headers_eqb h' h then requests_get w past slug h'
       else RequestException "401 Unauthorized";
     requests_patch := fun past version_id new h' =>
       if headers_eqb h' h then requests_patch w past version_id new h'
       else RequestException "401 Unauthorized" |}.

(** A catalog with one project whose list of releases is empty, and one
    whose releases bear no configured label. *)
Definition bare_catalog (slug : string) : response (list release) :=
  if String.eqb slug "empty" then Success []
  else Success [a_release "id30" "3.0" ["1.19.4"]].

Definition nothing_to_do : world :=
  fixed_world ["main.py"; "1.20.1"] (Some "token")
    (Loaded [("empty", ["1.0"]); ("other", ["1.0"])]) bare_catalog
    (fun _ => true).

Definition no_projects : world :=
  fixed_world ["main.py"; "1.20.1"] (Some "token") (Loaded [])
    bare_catalog (fun _ => true).

(** The release a crash is due to: fetched for a configured project,
    bearing a configured label, lacking the target, and with versions
    whose merge with the target raises [e]. *)
Definition blamed (list_set : list string -> list string)
  (c : config) (target : string) (tr : list event) (e : exn) : Prop :=
  exists slug labels rs v,
    In (slug, labels) c /\
    In (Get slug (Success rs)) tr /\
    In v (select labels rs) /\
    mem target (game_versions v) = false /\
    merge list_set (game_versions v) target = Raise e.

(* ================================================================== *)
(** * Properties *)

(** ** The definitions on sample inputs *)

Example version_key_1_21_9 :
  version_key "1.21.9" = Ok [TInt 1; TInt 21; TInt 9].
Proof. reflexivity. Qed.

Example version_key_rc :
  version_key "1.21-rc1" = Ok [TInt 1; TInt 21; TStr "rc1"].
Proof. reflexivity. Qed.

Example version_key_empty_tokens :
  version_key "1..2-" = Ok [TInt 1; TStr ""; TInt 2; TStr ""].
Proof. reflexivity. Qed.

Example version_key_leading_zero :
  version_key "1.07" = Ok [TInt 1; TInt 7].
Proof. reflexivity. Qed.

Example version_key_sup2 : version_key sup2 = Raise ValueError.
Proof. reflexivity. Qed.

Example sorted_numeric :
  sorted version_key ["1.21.10"; "1.21.9"; "1.21"; "1.21.1"]
  = Ok ["1.21"; "1.21.1"; "1.21.9"; "1.21.10"].
Proof. reflexivity. Qed.

Example sorted_stable :
  sorted version_key ["2"; "1-0"; "1.0"] = Ok ["1-0"; "1.0"; "2"]
  /\ sorted version_key ["2"; "1.0"; "1-0"] = Ok ["1.0"; "1-0"; "2"].
Proof. split; reflexivity. Qed.

Example sorted_mixed :
  sorted version_key ["1.21.9"; "1.21-rc1"] = Raise TypeError.
Proof. reflexivity. Qed.

(* ================================================================== *)
(** ** The order on keys *)

Section KeyOrder.

Lemma str_compare_refl (s : string) : String.compare s s = Eq.
Proof.
  pose proof (String.compare_antisym s s) as H.
  destruct (String.compare s s); simpl in H; congruence.
Qed.

Lemma str_compare_eq (s t : string) : String.compare s t = Eq <-> s = t.
Proof.
  split; [apply String.compare_eq_iff | intros ->; apply str_compare_refl].
Qed.

Lemma str_compare_lt_trans (a b c : string) :
  String.compare a b = Lt -> String.compare b c = Lt -> String.compare a c = Lt.
Proof.
  revert b c; induction a as [|x a IH]; intros [|y b] [|z c]; simpl;
    try congruence.
  unfold Ascii.compare.
  destruct (N_of_ascii x ?= N_of_ascii y)%N eqn:C1; try congruence;
    destruct (N_of_ascii y ?= N_of_ascii z)%N eqn:C2; try congruence;
    intros H1 H2.
  - apply N.compare_eq in C1, C2. rewrite C1, C2, N.compare_refl. eauto.
  - apply N.compare_eq in C1. now rewrite C1, C2.
  - apply N.compare_eq in C2. now rewrite <- C2, C1.
  - replace (N_of_ascii x ?= N_of_ascii z)%N with Lt; [reflexivity|].
    symmetry. apply N.compare_lt_iff.
    eapply N.lt_trans; apply N.compare_lt_iff; eassumption.
Qed.

Lemma token_cmp_eq (x y : token) : token_cmp x y = Some Eq <-> x = y.
Proof.
  destruct x as [m|s], y as [n|t]; simpl; split; intros H;
    try congruence.
  - injection H as H. apply Z.compare_eq in H. congruence.
  - injection H as ->. now rewrite Z.compare_refl.
  - injection H as H. apply str_compare_eq in H. congruence.
  - injection H as ->. now rewrite str_compare_refl.
Qed.

Lemma token_cmp_antisym (x y : token) :
  token_cmp y x = option_map CompOpp (token_cmp x y).
Proof.
  destruct x as [m|s], y as [n|t]; simpl; try reflexivity.
  - now rewrite Z.compare_antisym.
  - now rewrite String.compare_antisym.
Qed.

Lemma token_cmp_lt_trans (x y z : token) :
  token_cmp x y = Some Lt -> token_cmp y z = Some Lt ->
  token_cmp x z = Some Lt.
Proof.
  destruct x as [m|s], y as [n|t], z as [p|u]; simpl; try congruence;
    intros H1 H2; injection H1 as H1; injection H2 as H2; f_equal.
  - apply Z.compare_lt_iff in H1. apply Z.compare_lt_iff in H2.
    apply Z.compare_lt_iff. eapply Z.lt_trans; eassumption.
  - eapply str_compare_lt_trans; eauto.
Qed.

Lemma token_eqb_cmp (x y : token) :
  token_eqb x y = true <-> token_cmp x y = Some Eq.
Proof.
  rewrite token_cmp_eq.
  destruct x as [m|s], y as [n|t]; simpl; split; intros H; try congruence.
  - apply Z.eqb_eq in H. congruence.
  - injection H as ->. apply Z.eqb_refl.
  - apply String.eqb_eq in H. congruence.
  - injection H as ->. apply String.eqb_refl.
Qed.

Lemma token_lt_cmp (x y : token) :
  token_lt x y =
  match token_cmp x y with
  | Some c => Ok (is_lt c)
  | None => Raise TypeError
  end.
Proof.
  destruct x as [m|s], y as [n|t]; reflexivity.
Qed.

(** [key_lt] read off the three-way comparison. *)
Lemma key_lt_cmp (a b : key) :
  key_lt a b =
  match key_cmp a b with
  | Some c => Ok (is_lt c)
  | None => Raise TypeError
  end.
Proof.
  revert b; induction a as [|x a IH]; intros [|y b]; simpl; try reflexivity.
  destruct (token_eqb x y) eqn:E.
  - apply token_eqb_cmp in E. rewrite E. apply IH.
  - rewrite token_lt_cmp.
    destruct (token_cmp x y) as [[]|] eqn:C; try reflexivity.
    apply token_eqb_cmp in C. congruence.
Qed.

Lemma key_cmp_eq (a b : key) : key_cmp a b = Some Eq <-> a = b.
Proof.
  revert b; induction a as [|x a IH]; intros [|y b]; simpl;
    try (split; congruence).
  destruct (token_cmp x y) as [[]|] eqn:C.
  - apply token_cmp_eq in C. subst y. rewrite IH. split; congruence.
  - split; [congruence|]. intros H. injection H as -> ->.
    rewrite (proj2 (token_cmp_eq y y) eq_refl) in C. congruence.
  - split; [congruence|]. intros H. injection H as -> ->.
    rewrite (proj2 (token_cmp_eq y y) eq_refl) in C. congruence.
  - split; [congruence|]. intros H. injection H as -> ->.
    rewrite (proj2 (token_cmp_eq y y) eq_refl) in C. congruence.
Qed.

Lemma key_cmp_antisym (a b : key) :
  key_cmp b a = option_map CompOpp (key_cmp a b).
Proof.
  revert b; induction a as [|x a IH]; intros [|y b]; simpl; try reflexivity.
  rewrite (token_cmp_antisym x y).
  destruct (token_cmp x y) as [[]|]; simpl; auto.
Qed.

(** The comparison of keys is transitive where it is defined: from
    [a <= b] and [b <= c] the keys [a] and [c] compare, and [a <= c]. *)
Lemma key_cmp_trans (a b c : key) (c1 c2 : comparison) :
  key_cmp a b = Some c1 -> key_cmp b c = Some c2 ->
  c1 <> Gt -> c2 <> Gt ->
  key_cmp a c = Some (match c1 with Eq => c2 | _ => Lt end).
Proof.
  revert b c c1 c2; induction a as [|x a IH]; intros [|y b] [|z c] c1 c2;
    simpl; intros H1 H2 N1 N2; try congruence;
    try (injection H1 as <-; try (injection H2 as <-);
         solve [reflexivity | congruence]).
  destruct (token_cmp x y) as [[]|] eqn:C1; try congruence.
  - apply token_cmp_eq in C1. subst y.
    destruct (token_cmp x z) as [[]|] eqn:C2; try congruence.
    + eapply IH; eauto.
    + injection H2 as <-. now destruct c1.
  - injection H1 as <-.
    destruct (token_cmp y z) as [[]|] eqn:C2; try congruence.
    + apply token_cmp_eq in C2. subst z. now rewrite C1.
    + now rewrite (token_cmp_lt_trans _ _ _ C1 C2).
Qed.

Lemma key_le_cmp (a b : key) :
  key_le a b <-> exists c, key_cmp a b = Some c /\ c <> Gt.
Proof.
  unfold key_le. rewrite key_lt_cmp, (key_cmp_antisym a b).
  destruct (key_cmp a b) as [[]|]; simpl; split;
    try congruence; try (intros [c [H N]]; congruence);
    intros _; eexists; (split; [reflexivity | congruence]).
Qed.

Lemma key_le_refl (a : key) : key_le a a.
Proof.
  apply key_le_cmp. exists Eq. split; [now apply key_cmp_eq | congruence].
Qed.

Lemma key_le_trans (a b c : key) : key_le a b -> key_le b c -> key_le a c.
Proof.
  rewrite !key_le_cmp. intros [c1 [H1 N1]] [c2 [H2 N2]].
  eexists. split; [eapply key_cmp_trans; eauto|].
  destruct c1, c2; congruence.
Qed.

Lemma key_le_antisym (a b : key) : key_le a b -> key_le b a -> a = b.
Proof.
  rewrite !key_le_cmp. intros [c1 [H1 N1]] [c2 [H2 N2]].
  rewrite (key_cmp_antisym a b), H1 in H2. simpl in H2.
  apply key_cmp_eq. destruct c1; simpl in H2; congruence.
Qed.

Lemma comparable_cmp (a b : key) : comparable a b <-> key_cmp a b <> None.
Proof.
  unfold comparable. rewrite key_lt_cmp.
  destruct (key_cmp a b); split; try congruence; eauto.
  intros [r H]; congruence.
Qed.

Lemma comparable_sym (a b : key) : comparable a b -> comparable b a.
Proof.
  rewrite !comparable_cmp, (key_cmp_antisym a b).
  destruct (key_cmp a b); simpl; congruence.
Qed.

Lemma key_le_comparable (a b : key) : key_le a b -> comparable a b.
Proof.
  intros H. apply comparable_sym. now exists false.
Qed.

(** Of two comparable keys one stands before the other. *)
Lemma key_lt_true_le (a b : key) : key_lt a b = Ok true -> key_le a b.
Proof.
  intros H. apply key_le_cmp. rewrite key_lt_cmp in H.
  destruct (key_cmp a b) as [[]|]; simpl in H; try congruence.
  exists Lt. split; congruence.
Qed.

End KeyOrder.

(* ================================================================== *)
(** ** Correctness of the sort *)

Section Sorting.

Context {A : Type}.

Lemma insert_sound (x : key * A) (l l' : list (key * A)) :
  insert x l = Ok l' -> StronglySorted dle l ->
  Permutation (x :: l) l' /\ StronglySorted dle l'.
Proof.
  revert l'; induction l as [|y ys IH]; simpl; intros l' H S.
  - injection H as <-. split; [reflexivity|].
    constructor; constructor.
  - destruct (key_lt (fst y) (fst x)) as [[|]|e] eqn:C; simpl in H;
      try discriminate.
    + destruct (insert x ys) as [r|e] eqn:I; simpl in H; try discriminate.
      injection H as <-. inversion S as [|? ? S' F]; subst.
      destruct (IH r eq_refl S') as [P S''].
      split.
      * rewrite perm_swap. now constructor.
      * constructor; [assumption|].
        eapply Permutation_Forall; [exact P|].
        constructor; [|assumption].
        now apply key_lt_true_le.
    + injection H as <-. split; [reflexivity|].
      constructor; [assumption|].
      inversion S as [|? ? S' F]; subst.
      constructor; [exact C|].
      eapply Forall_impl; [|exact F].
      intros z Hz. eapply key_le_trans; [exact C | exact Hz].
Qed.

Lemma insert_complete (x : key * A) (l : list (key * A)) :
  Forall (fun y => comparable (fst y) (fst x)) l ->
  exists l', insert x l = Ok l'.
Proof.
  induction 1 as [|y ys [b Hb] _ [r IH]]; simpl; [eauto|].
  rewrite Hb. simpl. destruct b; [rewrite IH|]; simpl; eauto.
Qed.

Lemma insert_raises (x : key * A) (l : list (key * A)) (e : exn) :
  insert x l = Raise e -> e = TypeError.
Proof.
  induction l as [|y ys IH]; simpl; [discriminate|].
  rewrite key_lt_cmp.
  destruct (key_cmp (fst y) (fst x)) as [c|]; simpl; [|congruence].
  destruct (is_lt c); [|discriminate].
  destruct (insert x ys); simpl; [discriminate|].
  intros H; injection H as <-. now apply IH.
Qed.

Lemma sort_decorated_sound (l s : list (key * A)) :
  sort_decorated l = Ok s -> Permutation l s /\ StronglySorted dle s.
Proof.
  revert s; induction l as [|x xs IH]; simpl; intros s H.
  - injection H as <-. split; constructor.
  - destruct (sort_decorated xs) as [s'|] eqn:E; simpl in H; try discriminate.
    destruct (IH s' eq_refl) as [P S].
    destruct (insert_sound _ _ _ H S) as [P' S'].
    split; [|assumption].
    rewrite <- P'. now constructor.
Qed.

Lemma sort_decorated_complete (l : list (key * A)) :
  (forall p q, In p l -> In q l -> comparable (fst p) (fst q)) ->
  exists s, sort_decorated l = Ok s.
Proof.
  induction l as [|x xs IH]; simpl; intros H; [eauto|].
  destruct IH as [s E]; [intros; apply H; auto|].
  rewrite E. simpl. apply insert_complete.
  destruct (sort_decorated_sound _ _ E) as [P _].
  apply Forall_forall. intros y Hy. apply H; [right|now left].
  eapply Permutation_in; [symmetry; exact P | exact Hy].
Qed.

Lemma sort_decorated_raises (l : list (key * A)) (e : exn) :
  sort_decorated l = Raise e -> e = TypeError.
Proof.
  induction l as [|x xs IH]; simpl; [discriminate|].
  destruct (sort_decorated xs); simpl.
  - apply insert_raises.
  - intros H; injection H as <-. now apply IH.
Qed.

End Sorting.

(** In a sorted list any two elements are related one way or the other. *)
Lemma StronglySorted_related {B} (R : B -> B -> Prop) (l : list B) :
  StronglySorted R l ->
  forall x y, In x l -> In y l -> x = y \/ R x y \/ R y x.
Proof.
  induction 1 as [|a l S IH F]; simpl; [contradiction|].
  rewrite Forall_forall in F.
  intros x y [->|Hx] [->|Hy]; auto.
Qed.

(** A list has at most one sorted arrangement when the order is
    antisymmetric on its elements. *)
Lemma StronglySorted_unique {B} (R : B -> B -> Prop) (l1 l2 : list B) :
  (forall x y, In x l1 -> In y l1 -> R x y -> R y x -> x = y) ->
  StronglySorted R l1 -> StronglySorted R l2 -> Permutation l1 l2 ->
  l1 = l2.
Proof.
  revert l2; induction l1 as [|x l1 IH]; intros l2 anti S1 S2 P.
  - apply Permutation_nil in P. now subst.
  - destruct l2 as [|y l2].
    { symmetry in P. apply Permutation_nil in P. discriminate. }
    inversion S1 as [|? ? S1' F1]; subst.
    inversion S2 as [|? ? S2' F2]; subst.
    rewrite Forall_forall in F1, F2.
    assert (x = y) as ->.
    { assert (Hx : In x (y :: l2))
        by (eapply Permutation_in; [exact P | now left]).
      assert (Hy : In y (x :: l1))
        by (eapply Permutation_in; [symmetry; exact P | now left]).
      destruct Hx as [->|Hx]; [reflexivity|].
      destruct Hy as [->|Hy]; [reflexivity|].
      apply anti; [now left | now right | now apply F1 | now apply F2]. }
    f_equal. apply IH; auto.
    + intros a b Ha Hb. apply anti; now right.
    + eapply Permutation_cons_inv; exact P.
Qed.

Section SortedBy.

Context {A : Type}.
Variable f : A -> result key.

Lemma decorate_sound (l : list A) (d : list (key * A)) :
  decorate f l = Ok d ->
  map snd d = l /\ Forall (fun p => f (snd p) = Ok (fst p)) d.
Proof.
  unfold decorate. revert d; induction l as [|x xs IH]; simpl; intros d H.
  - injection H as <-. split; constructor.
  - destruct (f x) as [k|] eqn:E; simpl in H; try discriminate.
    destruct (mapM _ xs) as [d'|] eqn:E'; simpl in H; try discriminate.
    injection H as <-. destruct (IH d' eq_refl) as [M F].
    split; simpl; [now rewrite M | now constructor].
Qed.

Lemma decorate_complete (l : list A) :
  (forall x, In x l -> exists k, f x = Ok k) ->
  exists d, decorate f l = Ok d.
Proof.
  unfold decorate. induction l as [|x xs IH]; simpl; intros H; [eauto|].
  destruct (H x (or_introl eq_refl)) as [k E]. rewrite E. simpl.
  destruct IH as [d E']; [auto|]. rewrite E'. simpl. eauto.
Qed.

Lemma decorate_raises (l : list A) (e : exn) :
  decorate f l = Raise e -> exists x, In x l /\ f x = Raise e.
Proof.
  unfold decorate. induction l as [|x xs IH]; simpl; [discriminate|].
  destruct (f x) as [k|e'] eqn:E; simpl.
  - destruct (mapM _ xs) as [d'|e'] eqn:E'; simpl; [discriminate|].
    intros H; injection H as <-.
    destruct (IH eq_refl) as [y [Hy Ey]]. eauto.
  - intros H; injection H as <-. eauto.
Qed.

Lemma StronglySorted_undecorate (s : list (key * A)) :
  Forall (fun p => f (snd p) = Ok (fst p)) s ->
  StronglySorted dle s -> StronglySorted (le_by f) (map snd s).
Proof.
  intros F S; induction S as [|p s S IH Fp]; simpl; constructor.
  - apply IH. now inversion F.
  - inversion F as [|? ? Hp Fs]; subst.
    rewrite Forall_forall in *. intros y Hy.
    apply in_map_iff in Hy. destruct Hy as [q [<- Hq]].
    exists (fst p), (fst q). repeat split; auto. now apply Fp.
Qed.

(** The result of [sorted] is a rearrangement of its argument, in
    ascending order of keys. *)
Lemma sorted_sound (l out : list A) :
  sorted f l = Ok out -> Permutation l out /\ StronglySorted (le_by f) out.
Proof.
  unfold sorted. intros H.
  destruct (decorate f l) as [d|] eqn:D; simpl in H; try discriminate.
  destruct (sort_decorated d) as [s|] eqn:S; simpl in H; try discriminate.
  injection H as <-.
  destruct (decorate_sound _ _ D) as [M F].
  destruct (sort_decorated_sound _ _ S) as [P SS].
  split.
  - rewrite <- M. now apply Permutation_map.
  - apply StronglySorted_undecorate; [|assumption].
    eapply Permutation_Forall; eassumption.
Qed.

(** [sorted] succeeds when every key exists and any two compare. *)
Lemma sorted_complete (l : list A) :
  (forall x, In x l -> exists k, f x = Ok k) ->
  (forall x y kx ky, In x l -> In y l ->
     f x = Ok kx -> f y = Ok ky -> comparable kx ky) ->
  exists out, sorted f l = Ok out.
Proof.
  intros K C. unfold sorted.
  destruct (decorate_complete l K) as [d D]. rewrite D. simpl.
  destruct (decorate_sound _ _ D) as [M F]. rewrite Forall_forall in F.
  destruct (sort_decorated_complete d) as [s S].
  - intros p q Hp Hq.
    apply (C (snd p) (snd q)); auto; rewrite <- M; now apply in_map.
  - rewrite S. simpl. eauto.
Qed.

(** It fails exactly in the two ways the source can: a key that cannot
    be built, or two keys that cannot be compared. *)
Lemma sorted_raises (l : list A) (e : exn) :
  sorted f l = Raise e ->
  (exists x, In x l /\ f x = Raise e) \/ e = TypeError.
Proof.
  unfold sorted. intros H.
  destruct (decorate f l) as [d|e'] eqn:D; simpl in H.
  - right. destruct (sort_decorated d) eqn:S; simpl in H; try discriminate.
    injection H as <-. eapply sort_decorated_raises; eauto.
  - left. injection H as <-. now apply decorate_raises.
Qed.

Lemma le_by_comparable (x y : A) (kx ky : key) :
  f x = Ok kx -> f y = Ok ky -> le_by f x y -> comparable kx ky.
Proof.
  intros Ex Ey [kx' [ky' [Ex' [Ey' L]]]].
  apply key_le_comparable. congruence.
Qed.

Lemma sorted_keys (l out : list A) :
  sorted f l = Ok out -> forall x, In x l -> exists k, f x = Ok k.
Proof.
  unfold sorted. intros H x Hx.
  destruct (decorate f l) as [d|] eqn:D; simpl in H; try discriminate.
  destruct (decorate_sound _ _ D) as [M F]. rewrite Forall_forall in F.
  rewrite <- M in Hx. apply in_map_iff in Hx. destruct Hx as [p [<- Hp]].
  eauto.
Qed.

Lemma le_by_antisym (x y : A) (kx ky : key) :
  f x = Ok kx -> f y = Ok ky -> le_by f x y -> le_by f y x -> kx = ky.
Proof.
  intros Ex Ey [a [b [Ea [Eb L1]]]] [c [d [Ec [Ed L2]]]].
  assert (a = kx) by congruence. assert (b = ky) by congruence.
  assert (c = ky) by congruence. assert (d = kx) by congruence.
  subst. now apply key_le_antisym.
Qed.

(** A sorted list sorts to itself, in whatever order its elements are
    presented, provided distinct elements have distinct keys. *)
Lemma sorted_of_sorted (l out : list A) :
  StronglySorted (le_by f) out -> Permutation l out ->
  (forall x, In x out -> exists k, f x = Ok k) ->
  (forall x y k, In x out -> In y out -> f x = Ok k -> f y = Ok k -> x = y) ->
  sorted f l = Ok out.
Proof.
  intros S P K inj.
  destruct (sorted_complete l) as [out2 E].
  - intros x Hx. apply K. eapply Permutation_in; eassumption.
  - intros x y kx ky Hx Hy Ex Ey.
    apply (Permutation_in _ P) in Hx. apply (Permutation_in _ P) in Hy.
    destruct (StronglySorted_related _ _ S x y Hx Hy) as [->|[L|L]].
    + assert (kx = ky) as -> by congruence.
      apply key_le_comparable, key_le_refl.
    + eapply le_by_comparable; eassumption.
    + apply comparable_sym. eapply le_by_comparable; eassumption.
  - rewrite E. f_equal. symmetry.
    destruct (sorted_sound _ _ E) as [P2 S2].
    apply (StronglySorted_unique (le_by f)); auto.
    + intros x y Hx Hy L1 L2.
      destruct (K x Hx) as [kx Ex]. destruct (K y Hy) as [ky Ey].
      assert (kx = ky) as -> by (eapply le_by_antisym; eassumption).
      eapply inj; eassumption.
    + rewrite <- P. exact P2.
Qed.

(** [sorted] returns exactly when every key exists and any two keys
    compare: whether it returns does not depend on which comparisons the
    sorting algorithm chooses to make. *)
Lemma sorted_returns_iff (l : list A) :
  (exists out, sorted f l = Ok out) <->
  (forall x, In x l -> exists k, f x = Ok k) /\
  (forall x y kx ky, In x l -> In y l ->
     f x = Ok kx -> f y = Ok ky -> comparable kx ky).
Proof.
  split.
  - intros [out E]. split; [exact (sorted_keys l out E)|].
    intros x y kx ky Hx Hy Ex Ey.
    destruct (sorted_sound _ _ E) as [P S].
    apply (Permutation_in _ P) in Hx. apply (Permutation_in _ P) in Hy.
    destruct (StronglySorted_related _ _ S x y Hx Hy) as [->|[L|L]].
    + assert (kx = ky) as -> by congruence.
      apply key_le_comparable, key_le_refl.
    + eapply le_by_comparable; eassumption.
    + apply comparable_sym. eapply le_by_comparable; eassumption.
  - intros [K C]. now apply sorted_complete.
Qed.

End SortedBy.

(* ================================================================== *)
(** ** The merge-and-sort step *)

Lemma in_order_listing : set_listing in_order.
Proof.
  intros l. split; [apply NoDup_nodup | intros x; apply nodup_In].
Qed.

Lemma reversed_listing : set_listing reversed.
Proof.
  intros l. unfold reversed. split.
  - apply NoDup_rev, NoDup_nodup.
  - intros x. rewrite <- in_rev. apply nodup_In.
Qed.

Lemma mem_In (x : string) (l : list string) : mem x l = true <-> In x l.
Proof.
  unfold mem. rewrite existsb_exists. split.
  - intros [y [Hy E]]. apply String.eqb_eq in E. now subst.
  - intros H. exists x. split; [assumption | apply String.eqb_refl].
Qed.

Lemma mem_not_In (x : string) (l : list string) :
  mem x l = false <-> ~ In x l.
Proof.
  rewrite <- mem_In. destruct (mem x l); split; congruence.
Qed.

Section Merge.

Variable list_set : list string -> list string.
Hypothesis listing : set_listing list_set.

Lemma list_set_two (a b : string) :
  a <> b -> list_set [a; b] = [a; b] \/ list_set [a; b] = [b; a].
Proof.
  intros N. destruct (listing [a; b]) as [D I].
  apply Permutation_length_2_inv. symmetry.
  apply NoDup_Permutation; auto.
  repeat constructor; simpl; intuition congruence.
Qed.

Lemma merge_sound (cur : list string) (target : string) (out : list string) :
  merge list_set cur target = Ok out ->
  Permutation (list_set (cur ++ [target])) out /\
  StronglySorted version_le out.
Proof. apply (sorted_sound version_key). Qed.

Lemma merge_elements (cur : list string) (target : string) (out : list string) :
  merge list_set cur target = Ok out ->
  NoDup out /\ forall x, In x out <-> In x cur \/ x = target.
Proof.
  intros H. destruct (merge_sound _ _ _ H) as [P _].
  destruct (listing (cur ++ [target])) as [D I]. split.
  - eapply Permutation_NoDup; eassumption.
  - intros x. rewrite <- (Permutation_in' (eq_refl x) P), I, in_app_iff.
    simpl. intuition.
Qed.

(** Merging succeeds when every label has a key and any two keys compare. *)
Lemma merge_complete (cur : list string) (target : string) :
  (forall x, In x (cur ++ [target]) -> exists k, version_key x = Ok k) ->
  (forall x y kx ky, In x (cur ++ [target]) -> In y (cur ++ [target]) ->
     version_key x = Ok kx -> version_key y = Ok ky -> comparable kx ky) ->
  exists out, merge list_set cur target = Ok out.
Proof.
  intros K C. apply sorted_complete.
  - intros x Hx. apply K. now apply (listing (cur ++ [target])).
  - intros x y kx ky Hx Hy. apply C; now apply (listing (cur ++ [target])).
Qed.

(** Merging a release label with a pre-release label of another shape
    ends in a [TypeError] in both orders the set can be listed in. *)
Lemma merge_heterogeneous :
  merge list_set ["1.21.9"] "1.21-rc1" = Raise TypeError.
Proof.
  unfold merge. simpl app.
  destruct (list_set_two "1.21.9" "1.21-rc1") as [-> | ->];
    [discriminate | reflexivity | reflexivity].
Qed.

End Merge.

(* ================================================================== *)
(** ** Reasoning about steps of the script *)

Lemma post_bind {A B} (m : M A) (f : A -> M B) (s : state)
  (Q1 : A -> state -> Prop) (Q : B -> state -> Prop)
  (E : exn -> state -> Prop) :
  post (m s) Q1 E ->
  (forall a s', Q1 a s' -> post (f a s') Q E) ->
  post (bindM m f s) Q E.
Proof.
  unfold post, bindM. destruct (m s) as [[a|e] s']; intros H K; auto.
  now apply K.
Qed.

Lemma post_weaken {A} (x : result A * state)
  (Q Q' : A -> state -> Prop) (E E' : exn -> state -> Prop) :
  post x Q E ->
  (forall a s, Q a s -> Q' a s) -> (forall e s, E e s -> E' e s) ->
  post x Q' E'.
Proof. destruct x as [[a|e] s]; simpl; auto. Qed.

Lemma post_for_each {A} (body : nat -> A -> M nat) (l : list A)
  (I : nat -> state -> Prop) (E : exn -> state -> Prop) :
  (forall x t s, In x l -> I t s -> post (body t x s) I E) ->
  forall t s, I t s -> post (for_each body l t s) I E.
Proof.
  induction l as [|x xs IH]; simpl; intros H t s Hs; [exact Hs|].
  eapply post_bind; [apply H; auto|].
  intros t' s' Hs'. apply IH; auto.
Qed.

Lemma successes_app (a b : list event) :
  successes (a ++ b) = successes a + successes b.
Proof.
  induction a as [|[slug r|vid new [u|e]|] a IH]; simpl; auto.
Qed.

Section Steps.

Variable list_set : list string -> list string.
Variable w : world.
Variable target : string.
Variable h : headers.

(** What one pass of the release loop does, case by case. *)
Lemma update_release_eq (total : nat) (v : release) (s : state) :
  update_release list_set w target h total v s =
  if mem target (game_versions v) then
    (Ok total,
     {| trace := trace s;
        stdout := stdout s
                  ++ [SkippingLine (name v) (version_number v) target] |})
  else
    match merge list_set (game_versions v) target with
    | Raise e => (Raise e, s)
    | Ok new =>
        let r := requests_patch w (trace s) (id v) new h in
        (Ok (match r with Success _ => S total | _ => total end),
         {| trace := trace s ++ [Patch (id v) new r; Sleep];
            stdout :=
              stdout s
              ++ UpdatingLine (name v) (version_number v)
                   (game_versions v) new
              :: match r with
                 | Success _ => []
                 | RequestException e => [FailedLine (id v) e]
                 end |})
    end.
Proof.
  unfold update_release.
  destruct (mem target (game_versions v)); [reflexivity|].
  destruct (merge list_set (game_versions v) target) as [new|e];
    [|now destruct s].
  cbv [bindM lift print patch_project_version history emit ret]; simpl.
  destruct (requests_patch w (trace s) (id v) new h); simpl;
    rewrite <- ?app_assoc; reflexivity.
Qed.

(** What one pass of the project loop does, case by case. *)
Lemma update_project_eq (total : nat) (slug : string) (labels : list string)
  (s : state) :
  update_project list_set w target h total (slug, labels) s =
  let r := requests_get w (trace s) slug h in
  match r with
  | RequestException e =>
      (Ok total,
       {| trace := trace s ++ [Get slug r];
          stdout := stdout s
                    ++ [ProcessingLine slug; NetworkErrorLine slug e] |})
  | Success [] =>
      (Ok total,
       {| trace := trace s ++ [Get slug r];
          stdout := stdout s ++ [ProcessingLine slug] |})
  | Success rs =>
      (t <~ for_each (update_release list_set w target h)
                     (select labels rs) total ;;
       print (Text msg_rule) ;;; ret t)
        {| trace := trace s ++ [Get slug r];
           stdout := stdout s
                     ++ ProcessingLine slug
                     :: match select labels rs with
                        | [] => [NoMatchingLine slug labels]
                        | _ => []
                        end |}
  end.
Proof.
  unfold update_project.
  cbv [bindM get_project_versions print history emit ret]. cbn [trace stdout].
  destruct (requests_get w (trace s) slug h) as [[|v rs]|e];
    cbn [trace stdout].
  - reflexivity.
  - destruct (select labels (v :: rs)); cbn [trace stdout];
      rewrite <- ?app_assoc; reflexivity.
  - rewrite <- app_assoc. reflexivity.
Qed.


Lemma accounted_mono (c : config) (tr evs : list event)
  (vid : string) (new : list string) :
  accounted list_set c target tr vid new ->
  accounted list_set c target (tr ++ evs) vid new.
Proof.
  intros (slug & labels & rs & v & H1 & H2 & H3).
  exists slug, labels, rs, v. repeat split; try tauto.
  apply in_or_app. now left.
Qed.

Lemma patches_accounted_quiet (c : config) (tr evs : list event) :
  patches_accounted list_set target c tr ->
  (forall vid new r, ~ In (Patch vid new r) evs) ->
  patches_accounted list_set target c (tr ++ evs).
Proof.
  intros H N vid new r Hin. apply accounted_mono.
  apply in_app_or in Hin. destruct Hin as [Hin|Hin]; [eauto|].
  now apply N in Hin.
Qed.

Section Loops.

Variables a b : nat.

Lemma update_release_tally (total : nat) (v : release) (s : state) :
  tally a b total s ->
  post (update_release list_set w target h total v s)
       (tally a b) (fun _ _ => True).
Proof.
  unfold tally. intros Hn. rewrite update_release_eq.
  destruct (mem target (game_versions v)); simpl; [assumption|].
  destruct (merge list_set (game_versions v) target) as [new|e]; simpl;
    [|exact I].
  rewrite successes_app. simpl.
  destruct (requests_patch w (trace s) (id v) new h); simpl; lia.
Qed.

Lemma update_project_tally (total : nat) (item : string * list string)
  (s : state) :
  tally a b total s ->
  post (update_project list_set w target h total item s)
       (tally a b) (fun _ _ => True).
Proof.
  destruct item as [slug labels]. unfold tally. intros Hn.
  assert (Hs : forall r : response (list release),
             successes (trace s ++ [Get slug r]) = successes (trace s)).
  { intros r. rewrite successes_app. simpl. lia. }
  rewrite update_project_eq. cbv zeta.
  destruct (requests_get w (trace s) slug h) as [[|v rs]|e]; simpl;
    try (rewrite Hs; assumption).
  eapply post_bind.
  - eapply post_for_each.
    + intros x t s0 _. apply update_release_tally.
    + unfold tally. simpl. rewrite Hs. assumption.
  - intros t s' Hn'. exact Hn'.
Qed.

Lemma projects_tally (l : list (string * list string)) (total : nat)
  (s : state) :
  tally a b total s ->
  post (for_each (update_project list_set w target h) l total s)
       (tally a b) (fun _ _ => True).
Proof.
  apply post_for_each. intros x t s0 _. apply update_project_tally.
Qed.

Variable c : config.

Lemma update_release_audited (slug : string) (labels : list string)
  (rs : list release) (total : nat) (v : release) (s : state) :
  In (slug, labels) c -> In v (select labels rs) ->
  audited list_set target c s /\ In (Get slug (Success rs)) (trace s) ->
  post (update_release list_set w target h total v s)
       (fun _ s' => audited list_set target c s' /\
                    In (Get slug (Success rs)) (trace s'))
       (crashed list_set target c).
Proof.
  intros Hc Hv [Ha Hg]. rewrite update_release_eq.
  destruct (mem target (game_versions v)) eqn:Hm; simpl.
  { split; assumption. }
  destruct (merge list_set (game_versions v) target) as [new|e] eqn:Hmerge;
    simpl.
  2:{ split; [assumption|]. now exists (game_versions v). }
  split; cbn [trace].
  - intros vid new' r Hin. apply in_app_or in Hin.
    destruct Hin as [Hin|Hin]; [now apply accounted_mono, (Ha vid new' r)|].
    simpl in Hin. destruct Hin as [E|[E|[]]]; [|discriminate].
    injection E as <- <- _.
    exists slug, labels, rs, v. repeat split; auto.
    apply in_or_app. now left.
  - apply in_or_app. now left.
Qed.

Lemma update_project_audited (total : nat) (item : string * list string)
  (s : state) :
  In item c -> audited list_set target c s ->
  post (update_project list_set w target h total item s)
       (fun _ s' => audited list_set target c s')
       (crashed list_set target c).
Proof.
  destruct item as [slug labels]. intros Hc Ha.
  assert (Hq : forall r : response (list release),
             patches_accounted list_set target c (trace s ++ [Get slug r])).
  { intros r. apply patches_accounted_quiet; [assumption|].
    intros vid new r' [E|[]]. discriminate. }
  rewrite update_project_eq. cbv zeta.
  destruct (requests_get w (trace s) slug h) as [[|v rs]|e] eqn:Hr; simpl;
    try apply Hq.
  eapply post_bind.
  - eapply post_for_each.
    + intros x t s0 Hx.
      apply (update_release_audited slug labels (v :: rs)); auto.
    + split; simpl; [apply Hq|].
      apply in_or_app. right. now left.
  - intros t s' [Ha' _]. exact Ha'.
Qed.

Lemma projects_audited (l : list (string * list string)) (total : nat)
  (s : state) :
  incl l c -> audited list_set target c s ->
  post (for_each (update_project list_set w target h) l total s)
       (fun _ s' => audited list_set target c s')
       (crashed list_set target c).
Proof.
  intros Hl.
  apply (post_for_each _ _ (fun _ s' => audited list_set target c s')).
  intros x t s0 Hx. apply update_project_audited. now apply Hl.
Qed.

End Loops.

End Steps.

(* ================================================================== *)
(** ** The whole run *)

Section Run.

Variable list_set : list string -> list string.
Variable w : world.

(** After the startup checks the script either stops on an empty
    configuration, or runs the project loop and prints the counter. *)
Lemma main_post (target : string) (c : config) :
  startup_ok w target c ->
  post (main list_set w initial)
       (fun _ s' =>
          patches_accounted list_set target c (trace s') /\
          exists pre, stdout s' = pre ++ [DoneLine (successes (trace s'))])
       (fun e s' =>
          patches_accounted list_set target c (trace s') /\
          ((e = SystemExit 0 /\ c = [] /\ trace s' = []) \/
           merge_raised list_set target e)).
Proof.
  intros (Hargv & Htarget & (tok & Htok & Hne) & Hcfg).
  unfold main. apply Nat.ltb_ge in Hargv. rewrite Hargv, Htarget.
  unfold get_auth_headers, load_config. rewrite Htok, Hcfg.
  destruct tok as [|ch tok]; [congruence|].
  destruct c as [|item c'].
  - simpl. split; [intros vid new r []|]. left. auto.
  - set (h := [("Authorization", _); _; _]).
    cbv [bindM print ret initial]. cbn [trace stdout app].
    set (s0 := {| trace := [];
                  stdout := [Text msg_start; TargetLine target] |}).
    pose proof (projects_tally list_set w target h 0 0 (item :: c') 0 s0
                  eq_refl) as Ht.
    pose proof (projects_audited list_set w target h (item :: c')
                  (item :: c') 0 s0 (incl_refl _)) as Ha.
    destruct (for_each _ _ _ _) as [[t|e] s'].
    + simpl in *. split; [apply Ha; intros vid new r []|].
      exists (stdout s'). unfold tally in Ht. repeat f_equal. lia.
    + simpl in *. destruct Ha as [Ha Hm]; [intros vid new r []|].
      split; [assumption | now right].
Qed.

End Run.

(* ================================================================== *)
(** ** VersionKey *)

(** C2. Numeric runs are compared as integers: the key of 1.21.9 is
    strictly below the key of 1.21.10, although the label 1.21.10 is
    below 1.21.9 as a string; and the key of 1.21 is strictly below the
    key of 1.21.1. *)
Theorem version_key_numeric_order :
  (a <- version_key "1.21.9" ;; b <- version_key "1.21.10" ;; key_lt a b)
  = Ok true /\
  (a <- version_key "1.21.10" ;; b <- version_key "1.21.9" ;; key_lt a b)
  = Ok false /\
  ("1.21.10" <? "1.21.9")%string = true /\
  (a <- version_key "1.21" ;; b <- version_key "1.21.1" ;; key_lt a b)
  = Ok true /\
  (a <- version_key "1.21.1" ;; b <- version_key "1.21" ;; key_lt a b)
  = Ok false /\
  sorted version_key ["1.21.10"; "1.21.1"; "1.21.9"; "1.21"]
  = Ok ["1.21"; "1.21.1"; "1.21.9"; "1.21.10"].
Proof. repeat split; reflexivity. Qed.

(** The pieces [re_split] returns hold no separator, and there is one
    more of them than there are separators in the label. *)
Lemma re_split_sep_free (v : string) :
  Forall (fun x => Py.all_chars (fun c => negb (Py.is_sep c)) x = true)
         (Py.re_split v).
Proof.
  induction v as [|c v IH]; simpl.
  - repeat constructor.
  - destruct (Py.is_sep c) eqn:E; [now constructor|].
    destruct (Py.re_split v) as [|t ts]; constructor; simpl;
      try rewrite E; simpl; auto.
    + now inversion IH.
    + now inversion IH.
Qed.

Lemma re_split_length (v : string) :
  List.length (Py.re_split v)
  = S (List.length (filter Py.is_sep (list_ascii_of_string v))).
Proof.
  induction v as [|c v IH]; simpl; [reflexivity|].
  destruct (Py.is_sep c); simpl; [now rewrite IH|].
  destruct (Py.re_split v); simpl in *; congruence.
Qed.

Lemma decimal_is_digit (x : string) :
  Py.isdecimal x = true -> Py.isdigit x = true.
Proof.
  destruct x as [|c x]; [discriminate|].
  unfold Py.isdecimal, Py.isdigit. generalize (String c x). clear.
  induction s as [|c s IH]; simpl; [reflexivity|].
  intros H. apply andb_true_iff in H. destruct H as [Hc Hs].
  unfold Py.is_digit_char. rewrite Hc. simpl. auto.
Qed.

Lemma coerce_convertible (x : string) :
  convertible x ->
  coerce x =
  Ok (if Py.isdecimal x then TInt (Py.decimal_value 0 x) else TStr x).
Proof.
  unfold convertible, coerce, Py.int. intros H.
  destruct (Py.isdigit x) eqn:D.
  - destruct (H eq_refl) as [-> L]. apply Nat.leb_le in L. now rewrite L.
  - destruct (Py.isdecimal x) eqn:E; [|reflexivity].
    apply decimal_is_digit in E. congruence.
Qed.

Lemma mapM_coerce_spec (l : list string) :
  Forall convertible l ->
  mapM coerce l =
  Ok (map (fun x => if Py.isdecimal x then TInt (Py.decimal_value 0 x)
                    else TStr x) l).
Proof.
  induction 1 as [|x l Hx _ IH]; simpl; [reflexivity|].
  now rewrite IH, (coerce_convertible x Hx).
Qed.

(** Where every piece that passes [isdigit] is made of decimal digits,
    no more of them than [int] converts, [version_key] returns the key
    the specification describes. *)
Lemma version_key_refines_spec (v : string) :
  Forall convertible (Py.re_split v) ->
  version_key v = Ok (toKey_spec v).
Proof. apply mapM_coerce_spec. Qed.

Lemma all_chars_re_split (p : ascii -> bool) (v : string) :
  Py.all_chars p v = true ->
  Forall (fun x => Py.all_chars p x = true) (Py.re_split v).
Proof.
  induction v as [|c v IH]; simpl; intros H.
  - repeat constructor.
  - apply andb_true_iff in H. destruct H as [Hc Hv].
    specialize (IH Hv).
    destruct (Py.is_sep c); [now constructor|].
    destruct (Py.re_split v) as [|t ts]; constructor; simpl;
      try (rewrite Hc; simpl); auto.
    + now inversion IH.
    + now inversion IH.
Qed.

Lemma ascii_digit_decimal (x : string) :
  Py.all_chars is_ascii x = true -> Py.isdigit x = Py.isdecimal x.
Proof.
  destruct x as [|c x]; [reflexivity|].
  unfold Py.isdigit, Py.isdecimal.
  generalize (String c x). clear. intros x.
  induction x as [|c x IH]; simpl; [reflexivity|].
  intros H. apply andb_true_iff in H. destruct H as [Hc Hx].
  rewrite (IH Hx). f_equal.
  unfold Py.is_digit_char, is_ascii in *. apply N.ltb_lt in Hc.
  destruct (Py.is_decimal_char c); simpl; [reflexivity|].
  repeat (apply orb_false_intro); apply N.eqb_neq; lia.
Qed.

(** On labels of ASCII characters without a piece longer than [int]
    converts, [version_key] returns and agrees with the specification. *)
Lemma version_key_ascii (v : string) :
  Py.all_chars is_ascii v = true ->
  Forall (fun x => (String.length x <= Py.int_max_str_digits)%nat)
         (Py.re_split v) ->
  version_key v = Ok (toKey_spec v).
Proof.
  intros H B. apply version_key_refines_spec.
  pose proof (all_chars_re_split is_ascii v H) as A.
  rewrite Forall_forall in *. intros x Hx D.
  split; [|now apply B].
  rewrite <- (ascii_digit_decimal x (A x Hx)). exact D.
Qed.

(** C5. [version_key] is not total: the superscript two passes
    [isdigit], is not a decimal digit, and [int] rejects it, so the call
    raises [ValueError] where the specification keeps the token as a
    string. *)
Theorem version_key_superscript_digit :
  Py.isdigit sup2 = true /\
  Py.isdecimal sup2 = false /\
  version_key sup2 = Raise ValueError /\
  toKey_spec sup2 = [TStr sup2] /\
  version_key ("1.21." ++ sup2) = Raise ValueError.
Proof. repeat split; reflexivity. Qed.

(* ================================================================== *)
(** ** The merged list *)

Section MergeProperties.

Variable list_set : list string -> list string.
Hypothesis listing : set_listing list_set.

(** The four parts of the invariant, for any merge that returns. *)
Lemma merge_invariant (cur : list string) (target : string)
  (out : list string) :
  merge list_set cur target = Ok out ->
  incl cur out /\
  count_occ string_dec out target = 1 /\
  NoDup out /\
  StronglySorted version_le out.
Proof.
  intros H.
  destruct (merge_elements list_set listing _ _ _ H) as [D I].
  destruct (merge_sound list_set _ _ _ H) as [_ S].
  repeat split; auto.
  - intros x Hx. apply I. now left.
  - assert (Hin : In target out) by (apply I; now right).
    apply (count_occ_In string_dec) in Hin.
    pose proof (proj1 (NoDup_count_occ string_dec out) D target). lia.
Qed.

(** Two distinct labels whose keys do not compare cannot be merged, in
    whichever order the set lists them. *)
Lemma merge_pair_raises (a b : string) (e : exn) :
  a <> b ->
  sorted version_key [a; b] = Raise e ->
  sorted version_key [b; a] = Raise e ->
  merge list_set [a] b = Raise e.
Proof.
  intros N H1 H2. unfold merge. simpl app.
  destruct (list_set_two list_set listing a b N) as [-> | ->]; assumption.
Qed.

(** Re-merging a merged list, when distinct labels have distinct keys. *)
Lemma merge_again (cur : list string) (target : string) (out : list string) :
  (forall x y k, In x (cur ++ [target]) -> In y (cur ++ [target]) ->
     version_key x = Ok k -> version_key y = Ok k -> x = y) ->
  merge list_set cur target = Ok out ->
  merge list_set out target = Ok out.
Proof.
  intros inj H.
  destruct (merge_elements list_set listing _ _ _ H) as [D I].
  destruct (merge_sound list_set _ _ _ H) as [P S].
  destruct (listing (out ++ [target])) as [D2 I2].
  assert (Hin : forall x, In x out <-> In x (cur ++ [target])).
  { intros x. rewrite I, in_app_iff. simpl. intuition. }
  apply (sorted_of_sorted version_key); auto.
  - apply NoDup_Permutation; auto.
    intros x. rewrite I2, in_app_iff, I. simpl. intuition.
  - intros x Hx. apply (sorted_keys version_key _ _ H).
    apply (listing (cur ++ [target])). now apply Hin.
  - intros x y k Hx Hy. apply inj; now apply Hin.
Qed.

End MergeProperties.

(** C6 as stated fails: with the set listed in reverse, merging
    [1.0] and [1-0], whose keys are equal, with [2] gives one
    arrangement, and merging the result again gives the other. *)
Lemma merge_reorders_equal_keys :
  set_listing reversed /\
  version_key "1.0" = version_key "1-0" /\
  merge reversed ["1.0"; "1-0"] "2" = Ok ["1-0"; "1.0"; "2"] /\
  merge reversed ["1-0"; "1.0"; "2"] "2" = Ok ["1.0"; "1-0"; "2"] /\
  ~ merge_idempotent reversed ["1.0"; "1-0"] "2".
Proof.
  split; [apply reversed_listing|].
  repeat split; try reflexivity.
  unfold merge_idempotent. discriminate.
Qed.

(** C6, amended. For every current list and target in which distinct
    labels have distinct keys, merging the merged list again with the
    same target changes nothing; a merge that raises, raises again. *)
Theorem merge_idempotent_distinct_keys
  (list_set : list string -> list string) (cur : list string)
  (target : string) :
  set_listing list_set ->
  (forall x y k, In x (cur ++ [target]) -> In y (cur ++ [target]) ->
     version_key x = Ok k -> version_key y = Ok k -> x = y) ->
  merge_idempotent list_set cur target.
Proof.
  intros L inj. unfold merge_idempotent.
  destruct (merge list_set cur target) as [out|e] eqn:H; simpl;
    [|reflexivity].
  eapply merge_again; eassumption.
Qed.

Lemma merge_idempotent_distinct_keys_witness :
  set_listing reversed /\
  (forall x y k,
     In x (["1.21.9"; "1.20.1"] ++ ["1.21.10"]) ->
     In y (["1.21.9"; "1.20.1"] ++ ["1.21.10"]) ->
     version_key x = Ok k -> version_key y = Ok k -> x = y) /\
  merge_idempotent reversed ["1.21.9"; "1.20.1"] "1.21.10".
Proof.
  assert (I : forall x y k,
     In x (["1.21.9"; "1.20.1"] ++ ["1.21.10"]) ->
     In y (["1.21.9"; "1.20.1"] ++ ["1.21.10"]) ->
     version_key x = Ok k -> version_key y = Ok k -> x = y).
  { simpl. intros x y k Hx Hy.
    repeat (destruct Hx as [<-|Hx]; try contradiction);
      repeat (destruct Hy as [<-|Hy]; try contradiction);
      vm_compute; intros E1 E2; try reflexivity;
      rewrite <- E2 in E1; discriminate E1. }
  split; [apply reversed_listing|]. split; [exact I|].
  apply (merge_idempotent_distinct_keys reversed);
    [apply reversed_listing | exact I].
Defined.

(** C10. The merge step is not total: merging [1.21.9] with [1.21-rc1]
    has to compare the int 9 with the str rc1 and ends in a
    [TypeError], in whichever order the set is listed. *)
Theorem merge_mixed_labels_raises (list_set : list string -> list string) :
  set_listing list_set ->
  version_key "1.21.9" = Ok [TInt 1; TInt 21; TInt 9] /\
  version_key "1.21-rc1" = Ok [TInt 1; TInt 21; TStr "rc1"] /\
  merge list_set ["1.21.9"] "1.21-rc1" = Raise TypeError.
Proof.
  intros L. repeat split.
  apply merge_pair_raises; [assumption | discriminate | reflexivity..].
Qed.

Lemma merge_mixed_labels_raises_witness :
  set_listing in_order /\
  merge in_order ["1.21.9"] "1.21-rc1" = Raise TypeError.
Proof.
  split; [apply in_order_listing|].
  apply (merge_mixed_labels_raises in_order), in_order_listing.
Defined.

(* ================================================================== *)
(** ** Properties of a run *)

Lemma mapM_raises {A B} (f : A -> result B) (l : list A) (e : exn) :
  mapM f l = Raise e -> exists x, In x l /\ f x = Raise e.
Proof.
  induction l as [|x xs IH]; simpl; [discriminate|].
  destruct (f x) as [y|e'] eqn:E; simpl.
  - destruct (mapM f xs) as [ys|e']; simpl; [discriminate|].
    intros H; injection H as <-.
    destruct (IH eq_refl) as [z [Hz Ez]]. eauto.
  - intros H; injection H as <-. eauto.
Qed.

(** [version_key] raises nothing but [ValueError]. *)
Lemma version_key_raises (v : string) (e : exn) :
  version_key v = Raise e -> e = ValueError.
Proof.
  intros H. apply mapM_raises in H. destruct H as [y [_ Hy]].
  unfold coerce, Py.int in Hy.
  destruct (Py.isdigit y); [|discriminate].
  destruct (Py.isdecimal y); [|simpl in Hy; congruence].
  destruct (String.length y <=? Py.int_max_str_digits)%nat;
    simpl in Hy; congruence.
Qed.

Section RunProperties.

Variable list_set : list string -> list string.
Variable w : world.

(** Every write request of a run that passed the startup checks is
    accounted for. *)
Lemma run_audited (target : string) (c : config) :
  startup_ok w target c ->
  patches_accounted list_set target c (trace (snd (run list_set w))).
Proof.
  intros H. pose proof (main_post list_set w target c H) as P.
  unfold run. destruct (main list_set w initial) as [[[]|e] s]; simpl in *;
    tauto.
Qed.

(** After the startup checks a run ends in one of three ways: with status
    0 on an empty configuration, with status 0 after printing the number
    of accepted writes, or with status 1 because a merge raised. *)
Lemma run_after_startup (target : string) (c : config) :
  startup_ok w target c ->
  let (status, s) := run list_set w in
  (status = 0%Z /\ c = [] /\ trace s = []) \/
  (status = 0%Z /\
   exists pre, stdout s = pre ++ [DoneLine (successes (trace s))]) \/
  (status = 1%Z /\
   exists e, (e = TypeError \/ e = ValueError) /\
             merge_raised list_set target e).
Proof.
  intros H. pose proof (main_post list_set w target c H) as P.
  unfold run. destruct (main list_set w initial) as [[[]|e] s]; simpl in *.
  - right. left. split; [reflexivity | tauto].
  - destruct P as [_ [(-> & -> & Ht) | [cur Hm]]]; [left; auto|].
    right. right.
    assert (He : e = TypeError \/ e = ValueError).
    { destruct (sorted_raises version_key _ _ Hm) as [[x [_ Hx]] | ->];
        [|now left].
      right. eapply version_key_raises; eassumption. }
    split; [destruct He as [-> | ->]; reflexivity|].
    exists e. split; [assumption | now exists cur].
Qed.

End RunProperties.

Lemma startup_ok_fixed (target : string) (c : config)
  (catalog : string -> response (list release)) (accept : string -> bool) :
  startup_ok
    (fixed_world ["main.py"; target] (Some "token") (Loaded c) catalog accept)
    target c.
Proof.
  repeat split; simpl; [lia|].
  exists "token". split; [reflexivity | discriminate].
Qed.

(** The end-to-end scenario: one write, carrying the list in key order,
    and a summary of one updated release. *)
Example scenario_run :
  run in_order scenario =
  (0%Z,
   {| trace := [Get "modA" (Success [a_release "idA" "1.0.0" ["1.19.4"]]);
                Patch "idA" ["1.19.4"; "1.20.1"] (Success tt);
                Sleep];
      stdout := [Text msg_start;
                 TargetLine "1.20.1";
                 ProcessingLine "modA";
                 UpdatingLine "Mod 1.0.0" "1.0.0" ["1.19.4"]
                   ["1.19.4"; "1.20.1"];
                 Text msg_rule;
                 DoneLine 1] |}).
Proof. reflexivity. Qed.

(** C1. In a run that passed the startup checks, every list sent in a
    write request is the merged list of a selected release that lacked
    the target: it includes the release's list, holds the target exactly
    once, has no duplicates and is in ascending order of keys. *)
Theorem merged_list_invariant
  (list_set : list string -> list string) (w : world)
  (target : string) (c : config)
  (vid : string) (new : list string) (r : response unit) :
  set_listing list_set ->
  startup_ok w target c ->
  In (Patch vid new r) (trace (snd (run list_set w))) ->
  exists slug labels rs v,
    In (slug, labels) c /\
    In (Get slug (Success rs)) (trace (snd (run list_set w))) /\
    In v (select labels rs) /\
    id v = vid /\
    merge list_set (game_versions v) target = Ok new /\
    incl (game_versions v) new /\
    count_occ string_dec new target = 1 /\
    NoDup new /\
    StronglySorted version_le new.
Proof.
  intros L S Hin.
  destruct (run_audited list_set w target c S vid new r Hin)
    as (slug & labels & rs & v & H1 & H2 & H3 & H4 & H5 & H6).
  exists slug, labels, rs, v.
  destruct (merge_invariant list_set L _ _ _ H6) as (I1 & I2 & I3 & I4).
  repeat split; assumption.
Qed.

Lemma merged_list_invariant_witness :
  set_listing in_order /\
  startup_ok scenario "1.20.1" [("modA", ["1.0.0"])] /\
  In (Patch "idA" ["1.19.4"; "1.20.1"] (Success tt))
     (trace (snd (run in_order scenario))) /\
  exists slug labels rs v,
    In (slug, labels) [("modA", ["1.0.0"])] /\
    In (Get slug (Success rs)) (trace (snd (run in_order scenario))) /\
    In v (select labels rs) /\
    id v = "idA" /\
    merge in_order (game_versions v) "1.20.1" = Ok ["1.19.4"; "1.20.1"] /\
    incl (game_versions v) ["1.19.4"; "1.20.1"] /\
    count_occ string_dec ["1.19.4"; "1.20.1"] "1.20.1" = 1 /\
    NoDup ["1.19.4"; "1.20.1"] /\
    StronglySorted version_le ["1.19.4"; "1.20.1"].
Proof.
  assert (H : In (Patch "idA" ["1.19.4"; "1.20.1"] (Success tt))
                 (trace (snd (run in_order scenario))))
    by (vm_compute; right; left; reflexivity).
  split; [apply in_order_listing|].
  split; [apply startup_ok_fixed|].
  split; [exact H|].
  apply (merged_list_invariant in_order scenario "1.20.1"
           [("modA", ["1.0.0"])] "idA" ["1.19.4"; "1.20.1"] (Success tt)).
  - apply in_order_listing.
  - apply startup_ok_fixed.
  - exact H.
Defined.

(** C3. A release whose list holds the target is passed over: the step
    returns the counter as it was, prints the skip notice and issues no
    request.  In a whole run, a release identifier all of whose fetched
    records hold the target receives no write request. *)
Theorem skip_issues_no_write
  (list_set : list string -> list string) (w : world)
  (target : string) (c : config) :
  (forall h total v s,
     In target (game_versions v) ->
     update_release list_set w target h total v s =
     (Ok total,
      {| trace := trace s;
         stdout := stdout s
                   ++ [SkippingLine (name v) (version_number v) target] |})) /\
  (startup_ok w target c ->
   forall vid,
     (forall slug rs v,
        In (Get slug (Success rs)) (trace (snd (run list_set w))) ->
        In v rs -> id v = vid -> In target (game_versions v)) ->
     forall new r, ~ In (Patch vid new r) (trace (snd (run list_set w)))).
Proof.
  split.
  - intros h total v s Hin. rewrite update_release_eq.
    apply mem_In in Hin. now rewrite Hin.
  - intros S vid Hall new r Hin.
    destruct (run_audited list_set w target c S vid new r Hin)
      as (slug & labels & rs & v & H1 & H2 & H3 & H4 & H5 & H6).
    apply mem_not_In in H4. apply H4.
    apply (Hall slug rs v); auto.
    unfold select in H3. apply filter_In in H3. tauto.
Qed.

Lemma skip_issues_no_write_witness :
  In "1.20.1" (game_versions (a_release "idA" "1.0.0" ["1.19.4"; "1.20.1"])) /\
  update_release in_order up_to_date "1.20.1" [] 0
    (a_release "idA" "1.0.0" ["1.19.4"; "1.20.1"]) initial =
  (Ok 0, {| trace := [];
            stdout := [SkippingLine "Mod 1.0.0" "1.0.0" "1.20.1"] |}) /\
  startup_ok up_to_date "1.20.1" [("modA", ["1.0.0"])] /\
  (forall slug rs v,
     In (Get slug (Success rs)) (trace (snd (run in_order up_to_date))) ->
     In v rs -> id v = "idA" -> In "1.20.1" (game_versions v)) /\
  (forall new r,
     ~ In (Patch "idA" new r) (trace (snd (run in_order up_to_date)))) /\
  run in_order up_to_date =
  (0%Z,
   {| trace := [Get "modA"
                  (Success [a_release "idA" "1.0.0" ["1.19.4"; "1.20.1"]])];
      stdout := [Text msg_start; TargetLine "1.20.1"; ProcessingLine "modA";
                 SkippingLine "Mod 1.0.0" "1.0.0" "1.20.1";
                 Text msg_rule; DoneLine 0] |}).
Proof.
  assert (H : forall slug rs v,
     In (Get slug (Success rs)) (trace (snd (run in_order up_to_date))) ->
     In v rs -> id v = "idA" -> In "1.20.1" (game_versions v)).
  { vm_compute. intros slug rs v [E|[]] Hv _. injection E as _ <-.
    destruct Hv as [<-|[]]. right. left. reflexivity. }
  assert (G : In "1.20.1"
                (game_versions
                   (a_release "idA" "1.0.0" ["1.19.4"; "1.20.1"])))
    by (right; left; reflexivity).
  split; [exact G|].
  split; [exact (proj1 (skip_issues_no_write in_order up_to_date "1.20.1"
                          [("modA", ["1.0.0"])]) [] 0 _ initial G)|].
  split; [apply startup_ok_fixed|].
  split; [exact H|].
  split; [|reflexivity].
  apply (proj2 (skip_issues_no_write in_order up_to_date "1.20.1"
                  [("modA", ["1.0.0"])]));
    [apply startup_ok_fixed | exact H].
Defined.

(** C9. The releases selected for a project are exactly its releases
    whose label is configured, in catalog order; the release loop of the
    project runs over them and no others; and in a whole run every write
    request goes to a release whose label is configured.  With labels
    1.0, 1.1, 2.0 and configured labels 1.0, 2.0 the first and the third
    release are selected. *)
Theorem selection_exact
  (list_set : list string -> list string) (w : world)
  (target : string) (c : config) :
  (forall labels rs v,
     In v (select labels rs) <-> In v rs /\ In (version_number v) labels) /\
  (forall i10 i11 i20 g10 g11 g20,
     select ["1.0"; "2.0"]
       [a_release i10 "1.0" g10; a_release i11 "1.1" g11;
        a_release i20 "2.0" g20]
     = [a_release i10 "1.0" g10; a_release i20 "2.0" g20]) /\
  (forall h total slug labels s v rs,
     requests_get w (trace s) slug h = Success (v :: rs) ->
     exists s1,
       trace s1 = trace s ++ [Get slug (Success (v :: rs))] /\
       update_project list_set w target h total (slug, labels) s =
       (t <~ for_each (update_release list_set w target h)
                      (select labels (v :: rs)) total ;;
        print (Text msg_rule) ;;; ret t) s1) /\
  (startup_ok w target c ->
   forall vid new r,
     In (Patch vid new r) (trace (snd (run list_set w))) ->
     exists slug labels rs v,
       In (slug, labels) c /\
       In (Get slug (Success rs)) (trace (snd (run list_set w))) /\
       In v rs /\ In (version_number v) labels /\ id v = vid).
Proof.
  assert (Sel : forall labels rs v,
     In v (select labels rs) <-> In v rs /\ In (version_number v) labels).
  { intros labels rs v. unfold select. rewrite filter_In, mem_In. tauto. }
  split; [exact Sel|]. split; [reflexivity|]. split.
  - intros h total slug labels s v rs Hr.
    rewrite update_project_eq. cbv zeta. rewrite Hr.
    eexists. split; [|reflexivity]. reflexivity.
  - intros S vid new r Hin.
    destruct (run_audited list_set w target c S vid new r Hin)
      as (slug & labels & rs & v & H1 & H2 & H3 & H4 & H5 & H6).
    apply Sel in H3. exists slug, labels, rs, v. tauto.
Qed.

Lemma selection_exact_witness :
  startup_ok two_projects "1.20.1"
    [("modB", ["0.1"]); ("modA", ["1.0"; "2.0"])] /\
  In (Patch "id10" ["1.19.4"; "1.20.1"] (Success tt))
     (trace (snd (run in_order two_projects))) /\
  exists slug labels rs v,
    In (slug, labels) [("modB", ["0.1"]); ("modA", ["1.0"; "2.0"])] /\
    In (Get slug (Success rs)) (trace (snd (run in_order two_projects))) /\
    In v rs /\ In (version_number v) labels /\ id v = "id10".
Proof.
  assert (H : In (Patch "id10" ["1.19.4"; "1.20.1"] (Success tt))
                 (trace (snd (run in_order two_projects))))
    by (vm_compute; right; right; left; reflexivity).
  split; [apply startup_ok_fixed|]. split; [exact H|].
  apply (proj2 (proj2 (proj2 (selection_exact in_order two_projects "1.20.1"
           [("modB", ["0.1"]); ("modA", ["1.0"; "2.0"])])))
           (startup_ok_fixed _ _ _ _) _ _ _ H).
Defined.

(** The run of [two_projects]: the first project cannot be listed and is
    passed over; of the second, 1.0 and 2.0 are written to and 1.1 is
    not; the write to 2.0 is refused and only the other one is counted. *)
Example two_projects_run :
  run in_order two_projects =
  (0%Z,
   {| trace :=
        [Get "modB" (RequestException "Connection refused");
         Get "modA" (Success [a_release "id10" "1.0" ["1.19.4"];
                              a_release "id11" "1.1" ["1.19.4"];
                              a_release "id20" "2.0" ["1.19.4"]]);
         Patch "id10" ["1.19.4"; "1.20.1"] (Success tt);
         Sleep;
         Patch "id20" ["1.19.4"; "1.20.1"]
           (RequestException "503 Server Error");
         Sleep];
      stdout :=
        [Text msg_start;
         TargetLine "1.20.1";
         ProcessingLine "modB";
         NetworkErrorLine "modB" "Connection refused";
         ProcessingLine "modA";
         UpdatingLine "Mod 1.0" "1.0" ["1.19.4"] ["1.19.4"; "1.20.1"];
         UpdatingLine "Mod 2.0" "2.0" ["1.19.4"] ["1.19.4"; "1.20.1"];
         FailedLine "id20" "503 Server Error";
         Text msg_rule;
         DoneLine 1] |}).
Proof. reflexivity. Qed.

(** What a project that cannot be listed does to the loop:
    [get_project_versions] prints a line naming the project and the
    error and returns the empty list; the project changes neither the
    counter nor anything but the trace and the output; the loop goes on
    with the remaining projects from there, and if it returns, the
    counter has grown by the writes accepted since. *)
Theorem fetch_failure_isolated
  (list_set : list string -> list string) (w : world)
  (target : string) (h : headers) (slug : string) (labels : list string)
  (rest : config) (total : nat) (s : state) (e : string) :
  requests_get w (trace s) slug h = RequestException e ->
  let s1 := {| trace := trace s ++ [Get slug (RequestException e)];
               stdout := stdout s ++ [ProcessingLine slug;
                                      NetworkErrorLine slug e] |} in
  get_project_versions w slug h s =
  (Ok [], {| trace := trace s ++ [Get slug (RequestException e)];
             stdout := stdout s ++ [NetworkErrorLine slug e] |}) /\
  update_project list_set w target h total (slug, labels) s = (Ok total, s1) /\
  for_each (update_project list_set w target h) ((slug, labels) :: rest)
    total s
  = for_each (update_project list_set w target h) rest total s1 /\
  (forall total' s',
     for_each (update_project list_set w target h) ((slug, labels) :: rest)
       total s = (Ok total', s') ->
     total' + successes (trace s) = total + successes (trace s')).
Proof.
  intros Hr s1.
  assert (Hp : update_project list_set w target h total (slug, labels) s
               = (Ok total, s1)).
  { rewrite update_project_eq. cbv zeta. rewrite Hr. reflexivity. }
  split; [|split; [exact Hp|split]].
  - cbv [get_project_versions bindM history emit print ret]. cbn [trace stdout].
    rewrite Hr. reflexivity.
  - cbn [for_each]. unfold bindM at 1. now rewrite Hp.
  - intros total' s' H.
    pose proof (projects_tally list_set w target h
                  (successes (trace s)) total ((slug, labels) :: rest)
                  total s (Nat.add_comm _ _)) as T.
    rewrite H in T. unfold tally in T. simpl in T. lia.
Qed.

Lemma fetch_failure_isolated_witness :
  requests_get two_projects (trace initial) "modB" [] =
    RequestException "Connection refused" /\
  for_each (update_project in_order two_projects "1.20.1" [])
    [("modB", ["0.1"]); ("modA", ["1.0"; "2.0"])] 0 initial
  = for_each (update_project in_order two_projects "1.20.1" [])
      [("modA", ["1.0"; "2.0"])] 0
      {| trace := [Get "modB" (RequestException "Connection refused")];
         stdout := [ProcessingLine "modB";
                    NetworkErrorLine "modB" "Connection refused"] |}.
Proof.
  split; [reflexivity|].
  apply (proj1 (proj2 (proj2
    (fetch_failure_isolated in_order two_projects "1.20.1" [] "modB"
       ["0.1"] [("modA", ["1.0"; "2.0"])] 0 initial "Connection refused"
       eq_refl)))).
Defined.

(** A list of one version and a target: what sorting the two gives, in
    both orders the set can list them in, is what the merge gives. *)
Lemma merge_pair (list_set : list string -> list string)
  (a b : string) (r : result (list string)) :
  set_listing list_set ->
  a <> b ->
  sorted version_key [a; b] = r ->
  sorted version_key [b; a] = r ->
  merge list_set [a] b = r.
Proof.
  intros L N H1 H2. unfold merge. simpl app.
  destruct (list_set_two list_set L a b N) as [-> | ->]; assumption.
Qed.

(** C7. After a project that cannot be listed, the processing of the
    following projects does not always complete: in [unlisted_then_mixed]
    the listing of the first project fails and is passed over, the first
    release of the second project is written to and the write accepted,
    and the second release makes the sort compare the str rc1 with the
    int 1; the [TypeError] ends the run with status 1, and no summary
    line reports the accepted write. *)
Theorem failed_fetch_then_crash (list_set : list string -> list string) :
  set_listing list_set ->
  startup_ok unlisted_then_mixed "1.20.1"
    [("modB", ["0.1"]); ("modA", ["1.0"; "2.0"])] /\
  run list_set unlisted_then_mixed =
  (1%Z,
   {| trace :=
        [Get "modB" (RequestException "Connection refused");
         Get "modA" (Success [a_release "id10" "1.0" ["1.19.4"];
                              a_release "id20" "2.0" ["1.20-rc1"]]);
         Patch "id10" ["1.19.4"; "1.20.1"] (Success tt);
         Sleep];
      stdout :=
        [Text msg_start;
         TargetLine "1.20.1";
         ProcessingLine "modB";
         NetworkErrorLine "modB" "Connection refused";
         ProcessingLine "modA";
         UpdatingLine "Mod 1.0" "1.0" ["1.19.4"] ["1.19.4"; "1.20.1"]] |}) /\
  successes (trace (snd (run list_set unlisted_then_mixed))) = 1 /\
  (forall n,
     ~ In (DoneLine n) (stdout (snd (run list_set unlisted_then_mixed)))).
Proof.
  intros L.
  assert (H1 : merge list_set ["1.19.4"] "1.20.1" = Ok ["1.19.4"; "1.20.1"])
    by (apply merge_pair; [assumption | discriminate | reflexivity..]).
  assert (H2 : merge list_set ["1.20-rc1"] "1.20.1" = Raise TypeError)
    by (apply merge_pair; [assumption | discriminate | reflexivity..]).
  assert (R : run list_set unlisted_then_mixed =
    (1%Z,
     {| trace :=
          [Get "modB" (RequestException "Connection refused");
           Get "modA" (Success [a_release "id10" "1.0" ["1.19.4"];
                                a_release "id20" "2.0" ["1.20-rc1"]]);
           Patch "id10" ["1.19.4"; "1.20.1"] (Success tt);
           Sleep];
        stdout :=
          [Text msg_start;
           TargetLine "1.20.1";
           ProcessingLine "modB";
           NetworkErrorLine "modB" "Connection refused";
           ProcessingLine "modA";
           UpdatingLine "Mod 1.0" "1.0" ["1.19.4"]
             ["1.19.4"; "1.20.1"]] |})).
  { unfold run. cbv -[merge]. rewrite H1. cbv -[merge]. rewrite H2.
    reflexivity. }
  split; [apply startup_ok_fixed|]. split; [exact R|].
  rewrite R. split; [reflexivity|].
  intros n H. simpl in H.
  repeat (destruct H as [H|H]; [discriminate H|]). exact H.
Qed.

Lemma failed_fetch_then_crash_witness :
  set_listing in_order /\
  fst (run in_order unlisted_then_mixed) = 1%Z /\
  successes (trace (snd (run in_order unlisted_then_mixed))) = 1.
Proof.
  split; [apply in_order_listing|].
  destruct (failed_fetch_then_crash in_order in_order_listing)
    as (_ & -> & _ & _).
  split; reflexivity.
Defined.

(** C8. Each fatal startup condition ends the run with status 1, after
    printing a message of its own and before any request: a missing
    argument, then a missing (or empty) token, then a missing
    configuration file or one that is not JSON.  The four messages are
    pairwise distinct. *)
Theorem fatal_startup (list_set : list string -> list string) (w : world) :
  ((List.length (argv w) < 2)%nat ->
   run list_set w =
   (1%Z, {| trace := [];
            stdout := [Text msg_usage; Text msg_example] |})) /\
  ((2 <= List.length (argv w))%nat -> token_missing w ->
   run list_set w =
   (1%Z, {| trace := [];
            stdout := [Text msg_start; Text msg_no_token] |})) /\
  ((2 <= List.length (argv w))%nat -> ~ token_missing w ->
   main_json w = FileNotFoundError ->
   run list_set w =
   (1%Z, {| trace := [];
            stdout := [Text msg_start; Text msg_config_not_found] |})) /\
  ((2 <= List.length (argv w))%nat -> ~ token_missing w ->
   main_json w = JSONDecodeError ->
   run list_set w =
   (1%Z, {| trace := [];
            stdout := [Text msg_start; Text msg_config_invalid] |})) /\
  (((List.length (argv w) < 2)%nat \/ token_missing w \/
    main_json w = FileNotFoundError \/ main_json w = JSONDecodeError) ->
   fst (run list_set w) = 1%Z /\ trace (snd (run list_set w)) = []) /\
  NoDup [msg_usage; msg_no_token; msg_config_not_found; msg_config_invalid].
Proof.
  assert (A : (List.length (argv w) < 2)%nat ->
              run list_set w =
              (1%Z, {| trace := [];
                       stdout := [Text msg_usage; Text msg_example] |})).
  { intros H. apply Nat.ltb_lt in H. unfold run, main. now rewrite H. }
  assert (B : (2 <= List.length (argv w))%nat -> token_missing w ->
              run list_set w =
              (1%Z, {| trace := [];
                       stdout := [Text msg_start; Text msg_no_token] |})).
  { intros H T. apply Nat.ltb_ge in H. unfold run, main, get_auth_headers.
    rewrite H. destruct T as [-> | ->]; reflexivity. }
  assert (C : forall f m,
              (f = FileNotFoundError /\ m = msg_config_not_found) \/
              (f = JSONDecodeError /\ m = msg_config_invalid) ->
              (2 <= List.length (argv w))%nat -> ~ token_missing w ->
              main_json w = f ->
              run list_set w =
              (1%Z, {| trace := []; stdout := [Text msg_start; Text m] |})).
  { intros f m Hf H T J. apply Nat.ltb_ge in H.
    unfold run, main, get_auth_headers, load_config. rewrite H, J.
    unfold token_missing in T.
    destruct (MODRINTH_TOKEN w) as [[|ch tok]|]; try tauto.
    destruct Hf as [[-> ->] | [-> ->]]; reflexivity. }
  split; [exact A|]. split; [exact B|].
  split; [apply C; auto|]. split; [apply C; auto|]. split.
  - intros H.
    destruct (Nat.lt_ge_cases (List.length (argv w)) 2) as [L|G];
      [rewrite A; auto|].
    assert (D : token_missing w \/ ~ token_missing w).
    { unfold token_missing.
      destruct (MODRINTH_TOKEN w) as [[|ch tok]|]; auto.
      right. intros [E|E]; discriminate. }
    destruct D as [T|T]; [rewrite B; auto|].
    destruct H as [H|[H|[H|H]]]; [lia | tauto | |].
    + rewrite (C _ msg_config_not_found
                 (or_introl (conj eq_refl eq_refl)) G T H).
      auto.
    + rewrite (C _ msg_config_invalid
                 (or_intror (conj eq_refl eq_refl)) G T H).
      auto.
  - repeat constructor; simpl; intros H;
      repeat (destruct H as [H|H]; try discriminate H); exact H.
Qed.

Lemma fatal_startup_witness :
  let quiet := fun _ : string => RequestException (A := list release) "" in
  let yes := fun _ : string => true in
  let w1 := fixed_world ["main.py"] None FileNotFoundError quiet yes in
  let w2 := fixed_world ["main.py"; "1.21.9"] (Some "") (Loaded []) quiet yes in
  let w3 := fixed_world ["main.py"; "1.21.9"] (Some "token")
              FileNotFoundError quiet yes in
  let w4 := fixed_world ["main.py"; "1.21.9"] (Some "token")
              JSONDecodeError quiet yes in
  ((List.length (argv w1) < 2)%nat /\
   run in_order w1 =
   (1%Z, {| trace := [];
            stdout := [Text msg_usage; Text msg_example] |})) /\
  ((2 <= List.length (argv w2))%nat /\ token_missing w2 /\
   run in_order w2 =
   (1%Z, {| trace := [];
            stdout := [Text msg_start; Text msg_no_token] |})) /\
  ((2 <= List.length (argv w3))%nat /\ ~ token_missing w3 /\
   main_json w3 = FileNotFoundError /\
   run in_order w3 =
   (1%Z, {| trace := [];
            stdout := [Text msg_start; Text msg_config_not_found] |})) /\
  ((2 <= List.length (argv w4))%nat /\ ~ token_missing w4 /\
   main_json w4 = JSONDecodeError /\
   run in_order w4 =
   (1%Z, {| trace := [];
            stdout := [Text msg_start; Text msg_config_invalid] |})).
Proof.
  intros quiet yes w1 w2 w3 w4.
  assert (T : forall f, ~ token_missing
                (fixed_world ["main.py"; "1.21.9"] (Some "token") f quiet yes)).
  { intros f [E|E]; discriminate E. }
  split; [|split; [|split]].
  - assert (H : (List.length (argv w1) < 2)%nat) by (simpl; lia).
    split; [exact H|].
    exact (proj1 (fatal_startup in_order w1) H).
  - assert (H : (2 <= List.length (argv w2))%nat) by (simpl; lia).
    assert (M : token_missing w2) by (right; reflexivity).
    split; [exact H|]. split; [exact M|].
    exact (proj1 (proj2 (fatal_startup in_order w2)) H M).
  - assert (H : (2 <= List.length (argv w3))%nat) by (simpl; lia).
    split; [exact H|]. split; [apply T|]. split; [reflexivity|].
    exact (proj1 (proj2 (proj2 (fatal_startup in_order w3))) H (T _) eq_refl).
  - assert (H : (2 <= List.length (argv w4))%nat) by (simpl; lia).
    split; [exact H|]. split; [apply T|]. split; [reflexivity|].
    exact (proj1 (proj2 (proj2 (proj2 (fatal_startup in_order w4))))
             H (T _) eq_refl).
Defined.

Section PatchFailures.

Variable list_set : list string -> list string.
Variable w : world.

(** A refused write is logged and not counted, and the step returns
    normally, so that the loop goes on with the next release. *)
Lemma failed_patch_not_counted (target : string) (h : headers)
  (total : nat) (v : release) (s : state) (new : list string) (e : string) :
  mem target (game_versions v) = false ->
  merge list_set (game_versions v) target = Ok new ->
  requests_patch w (trace s) (id v) new h = RequestException e ->
  update_release list_set w target h total v s =
  (Ok total,
   {| trace := trace s ++ [Patch (id v) new (RequestException e); Sleep];
      stdout := stdout s
                ++ [UpdatingLine (name v) (version_number v)
                      (game_versions v) new;
                    FailedLine (id v) e] |}).
Proof.
  intros Hm Hn Hr. rewrite update_release_eq, Hm, Hn. cbv zeta.
  now rewrite Hr.
Qed.

End PatchFailures.

(** C4. The exit status is not always 0 after the startup checks: when
    the release of [prerelease] is to be extended, sorting compares the
    str rc1 with the int 1, the [TypeError] is caught nowhere, and the
    run ends with status 1 before any write and without a summary. *)
Theorem run_crashes_on_mixed_keys (list_set : list string -> list string) :
  set_listing list_set ->
  startup_ok prerelease "1.21.1" [("modA", ["1.0.0"])] /\
  merge list_set ["1.21-rc1"] "1.21.1" = Raise TypeError /\
  run list_set prerelease =
  (1%Z,
   {| trace := [Get "modA" (Success [a_release "idA" "1.0.0" ["1.21-rc1"]])];
      stdout := [Text msg_start; TargetLine "1.21.1";
                 ProcessingLine "modA"] |}).
Proof.
  intros L.
  assert (H : merge list_set ["1.21-rc1"] "1.21.1" = Raise TypeError)
    by (apply merge_pair_raises; [assumption | discriminate | reflexivity..]).
  split; [apply startup_ok_fixed|]. split; [exact H|].
  unfold run. cbv -[merge]. rewrite H. reflexivity.
Qed.

Lemma run_crashes_on_mixed_keys_witness :
  set_listing in_order /\ fst (run in_order prerelease) = 1%Z.
Proof.
  split; [apply in_order_listing|].
  destruct (run_crashes_on_mixed_keys in_order in_order_listing)
    as (_ & _ & ->).
  reflexivity.
Defined.

(* ================================================================== *)
(** ** Further properties of [version_key] *)

Lemma mapM_length {A B} (f : A -> result B) (l : list A) (out : list B) :
  mapM f l = Ok out -> List.length out = List.length l.
Proof.
  revert out; induction l as [|x xs IH]; simpl; intros out H.
  - now injection H as <-.
  - destruct (f x); simpl in H; try discriminate.
    destruct (mapM f xs) as [ys|]; simpl in H; try discriminate.
    injection H as <-. simpl. now rewrite (IH ys eq_refl).
Qed.

(** X1. A key has one element per piece of the label: one more than the
    label has separators, so it is never empty, and the key of the empty
    label is the single empty string. *)
Theorem version_key_length (v : string) (k : key) :
  version_key v = Ok k ->
  List.length k
  = S (List.length (filter Py.is_sep (list_ascii_of_string v))) /\
  k <> [] /\
  version_key "" = Ok [TStr ""].
Proof.
  intros H. apply mapM_length in H. rewrite re_split_length in H.
  repeat split; [assumption|].
  intros ->. discriminate H.
Qed.

Lemma version_key_length_witness :
  version_key "1.21-rc1" = Ok [TInt 1; TInt 21; TStr "rc1"] /\
  List.length [TInt 1; TInt 21; TStr "rc1"]
  = S (List.length (filter Py.is_sep (list_ascii_of_string "1.21-rc1"))).
Proof.
  split; [reflexivity|].
  exact (proj1 (version_key_length "1.21-rc1" _ eq_refl)).
Defined.

Lemma re_split_dotted (v : string) :
  Py.re_split (dotted v) = Py.re_split v.
Proof.
  induction v as [|c v IH]; simpl; [reflexivity|].
  unfold Py.is_sep at 2. destruct (Py.ord c =? 45)%N eqn:E.
  - rewrite orb_true_r. simpl. now rewrite IH.
  - rewrite orb_false_r. unfold Py.is_sep. rewrite E, orb_false_r.
    now rewrite IH.
Qed.

(** X2. The key does not tell the two separators apart: turning every
    [-] of a label into [.] leaves its key, or the exception it raises,
    unchanged. *)
Theorem version_key_dotted (v : string) :
  version_key (dotted v) = version_key v.
Proof. unfold version_key. now rewrite re_split_dotted. Qed.

Lemma isdigit_cons_zero (x : string) :
  x <> EmptyString ->
  Py.isdigit (String "0" x) = Py.isdigit x /\
  Py.isdecimal (String "0" x) = Py.isdecimal x.
Proof. destruct x; [congruence|]. split; reflexivity. Qed.

Lemma coerce_cons_zero (t : string) :
  Py.isdigit t = true ->
  (String.length t <> Py.int_max_str_digits ->
   coerce (String "0" t) = coerce t) /\
  (String.length t = Py.int_max_str_digits ->
   Py.isdecimal t = true ->
   coerce (String "0" t) = Raise ValueError).
Proof.
  intros D.
  assert (N : t <> EmptyString) by (intros ->; discriminate D).
  destruct (isdigit_cons_zero t N) as [E1 E2].
  unfold coerce, Py.int. rewrite E1, E2, D. cbn [String.length].
  split.
  - intros L. destruct (Py.isdecimal t); [|reflexivity].
    destruct (Nat.leb_spec (S (String.length t)) Py.int_max_str_digits);
      destruct (Nat.leb_spec (String.length t) Py.int_max_str_digits);
      try lia; reflexivity.
  - intros L E. rewrite E.
    destruct (Nat.leb_spec (S (String.length t)) Py.int_max_str_digits);
      [lia | reflexivity].
Qed.

(** X3. A zero in front of a numeric first piece does not change the
    key, [int] dropping leading zeros, unless the piece has exactly as
    many digits as [int] converts: then the longer piece makes [int]
    raise [ValueError]. *)
Theorem version_key_leading_zero_ignored (v : string) :
  Py.isdigit (hd EmptyString (Py.re_split v)) = true ->
  (String.length (hd EmptyString (Py.re_split v))
   <> Py.int_max_str_digits ->
   version_key (String "0" v) = version_key v) /\
  (String.length (hd EmptyString (Py.re_split v))
   = Py.int_max_str_digits ->
   Py.isdecimal (hd EmptyString (Py.re_split v)) = true ->
   version_key (String "0" v) = Raise ValueError).
Proof.
  unfold version_key. cbn [Py.re_split Py.is_sep Py.ord].
  change (Py.is_sep "0") with false. cbv iota.
  destruct (Py.re_split v) as [|t ts]; cbn [hd mapM]; [discriminate|].
  intros D. destruct (coerce_cons_zero t D) as [Z1 Z2]. split.
  - intros L. now rewrite (Z1 L).
  - intros L E. now rewrite (Z2 L E).
Qed.

Lemma version_key_leading_zero_ignored_witness :
  Py.isdigit (hd EmptyString (Py.re_split "7.2")) = true /\
  String.length (hd EmptyString (Py.re_split "7.2"))
  <> Py.int_max_str_digits /\
  version_key "07.2" = version_key "7.2".
Proof.
  assert (L : String.length (hd EmptyString (Py.re_split "7.2"))
              <> Py.int_max_str_digits) by discriminate.
  split; [reflexivity|]. split; [exact L|].
  exact (proj1 (version_key_leading_zero_ignored "7.2" eq_refl) L).
Defined.

(** Keys of numbers only. *)
Lemma mapM_coerce_numeric (l : list string) :
  forallb short_number l = true ->
  mapM coerce l = Ok (map (fun x => TInt (Py.decimal_value 0 x)) l).
Proof.
  induction l as [|x l IH]; simpl; [reflexivity|].
  intros H. apply andb_true_iff in H. destruct H as [Hx Hl].
  unfold short_number in Hx. apply andb_true_iff in Hx.
  destruct Hx as [Hd Hn].
  unfold coerce at 1, Py.int. rewrite (decimal_is_digit x Hd), Hd, Hn.
  simpl. now rewrite (IH Hl).
Qed.

Lemma int_keys_comparable (a b : list Z) :
  comparable (map TInt a) (map TInt b).
Proof.
  unfold comparable.
  revert b; induction a as [|m a IH]; intros [|n b]; simpl; eauto.
  destruct (m =? n)%Z; eauto.
Qed.

Lemma numeric_label_key (v : string) :
  numeric_label v = true ->
  exists ns, version_key v = Ok (map TInt ns).
Proof.
  intros H. unfold version_key. rewrite (mapM_coerce_numeric _ H).
  rewrite <- (map_map (Py.decimal_value 0) TInt). eauto.
Qed.

Lemma mapM_coerce_returns (l : list string) (k : key) :
  mapM coerce l = Ok k -> Forall convertible l.
Proof.
  revert k; induction l as [|x l IH]; simpl; intros k H; [constructor|].
  destruct (coerce x) as [t|] eqn:C; simpl in H; try discriminate.
  destruct (mapM coerce l) as [ts|]; simpl in H; try discriminate.
  constructor; [|eapply IH; reflexivity].
  intros D. unfold coerce, Py.int in C. rewrite D in C.
  destruct (Py.isdecimal x); [|discriminate C].
  destruct (Nat.leb_spec (String.length x) Py.int_max_str_digits);
    [auto | discriminate C].
Qed.

(** X16. [version_key] returns exactly when every piece of the label
    that passes [isdigit] is made of decimal digits, no more of them
    than [int] converts; otherwise it raises [ValueError].  On a label of
    ASCII characters without a piece that long it always returns. *)
Theorem version_key_returns_iff (v : string) :
  ((exists k, version_key v = Ok k) <->
   Forall convertible (Py.re_split v)) /\
  (forall e, version_key v = Raise e -> e = ValueError) /\
  (Py.all_chars is_ascii v = true ->
   Forall (fun x => (String.length x <= Py.int_max_str_digits)%nat)
          (Py.re_split v) ->
   exists k, version_key v = Ok k).
Proof.
  split; [split|split].
  - intros [k H]. eapply mapM_coerce_returns; exact H.
  - intros H. eexists. apply mapM_coerce_spec. exact H.
  - apply version_key_raises.
  - intros H B. eexists. apply version_key_ascii; assumption.
Qed.

Lemma version_key_returns_iff_witness :
  Py.all_chars is_ascii "24w14a-pre.3" = true /\
  Forall (fun x => (String.length x <= Py.int_max_str_digits)%nat)
         (Py.re_split "24w14a-pre.3") /\
  exists k, version_key "24w14a-pre.3" = Ok k.
Proof.
  assert (B : Forall (fun x => (String.length x
                                <= Py.int_max_str_digits)%nat)
                     (Py.re_split "24w14a-pre.3")).
  { change (Py.re_split "24w14a-pre.3") with ["24w14a"; "pre"; "3"].
    repeat constructor; apply Nat.leb_le; reflexivity. }
  split; [reflexivity|]. split; [exact B|].
  exact (proj2 (proj2 (version_key_returns_iff "24w14a-pre.3")) eq_refl B).
Defined.

(* ================================================================== *)
(** ** Further properties of the merge step *)

Lemma merge_raises_kind (list_set : list string -> list string)
  (cur : list string) (target : string) (e : exn) :
  merge list_set cur target = Raise e -> e = TypeError \/ e = ValueError.
Proof.
  intros H.
  destruct (sorted_raises version_key _ _ H) as [[x [_ Hx]] | ->];
    [right | now left].
  eapply version_key_raises; eassumption.
Qed.

(** X4. The merged list holds nothing but the prior versions and the
    target: for a target that is not listed yet it is a rearrangement of
    the distinct prior versions and the target, so it is one longer than
    the number of distinct prior versions. *)
Theorem merge_adds_only_target
  (list_set : list string -> list string)
  (cur : list string) (target : string) (out : list string) :
  set_listing list_set ->
  ~ In target cur ->
  merge list_set cur target = Ok out ->
  Permutation out (target :: nodup string_dec cur) /\
  List.length out = S (List.length (nodup string_dec cur)) /\
  (forall x, In x out -> In x cur \/ x = target).
Proof.
  intros L N H.
  destruct (merge_elements list_set L _ _ _ H) as [D I].
  assert (P : Permutation out (target :: nodup string_dec cur)).
  { apply NoDup_Permutation; auto.
    - constructor; [now rewrite nodup_In | apply NoDup_nodup].
    - intros x. rewrite I. simpl. rewrite nodup_In. intuition. }
  repeat split; [exact P | | intros x; apply I].
  apply Permutation_length in P. exact P.
Qed.

Lemma merge_adds_only_target_witness :
  set_listing reversed /\
  ~ In "1.20.1" ["1.19.4"; "1.18.2"; "1.19.4"] /\
  merge reversed ["1.19.4"; "1.18.2"; "1.19.4"] "1.20.1"
  = Ok ["1.18.2"; "1.19.4"; "1.20.1"] /\
  List.length ["1.18.2"; "1.19.4"; "1.20.1"]
  = S (List.length (nodup string_dec ["1.19.4"; "1.18.2"; "1.19.4"])).
Proof.
  assert (N : ~ In "1.20.1" ["1.19.4"; "1.18.2"; "1.19.4"]).
  { simpl. intros [E|[E|[E|[]]]]; discriminate E. }
  split; [apply reversed_listing|]. split; [exact N|].
  split; [reflexivity|].
  exact (proj1 (proj2 (merge_adds_only_target reversed _ _ _
                         reversed_listing N eq_refl))).
Defined.

(** X5. The merge step returns exactly when every label has a key and
    any two of the keys compare; when it raises, it raises [ValueError]
    or [TypeError]. *)
Theorem merge_returns_iff
  (list_set : list string -> list string)
  (cur : list string) (target : string) :
  set_listing list_set ->
  ((exists out, merge list_set cur target = Ok out) <->
   (forall x, In x (cur ++ [target]) -> exists k, version_key x = Ok k) /\
   (forall x y kx ky, In x (cur ++ [target]) -> In y (cur ++ [target]) ->
      version_key x = Ok kx -> version_key y = Ok ky -> comparable kx ky)) /\
  (forall e, merge list_set cur target = Raise e ->
             e = TypeError \/ e = ValueError).
Proof.
  intros L. split; [|intros e; apply merge_raises_kind].
  unfold merge. rewrite sorted_returns_iff.
  destruct (L (cur ++ [target])) as [_ I].
  split; intros [K C]; split.
  - intros x Hx. apply K. now apply I.
  - intros x y kx ky Hx Hy. apply C; now apply I.
  - intros x Hx. apply K. now apply I.
  - intros x y kx ky Hx Hy. apply C; now apply I.
Qed.

Lemma merge_returns_iff_witness :
  set_listing reversed /\
  (exists out, merge reversed ["1.21.9"; "1.21"] "1.21.10" = Ok out) /\
  (forall x, In x (["1.21.9"; "1.21"] ++ ["1.21.10"]) ->
             exists k, version_key x = Ok k).
Proof.
  split; [apply reversed_listing|].
  assert (E : exists out, merge reversed ["1.21.9"; "1.21"] "1.21.10" = Ok out)
    by (eexists; reflexivity).
  split; [exact E|].
  exact (proj1 (proj1 (proj1 (merge_returns_iff reversed _ _
                                reversed_listing)) E)).
Defined.

Section NumericMerge.

Variable list_set : list string -> list string.
Hypothesis listing : set_listing list_set.

Lemma merge_on_numbers (cur : list string) (target : string) :
  forallb numeric_label (cur ++ [target]) = true ->
  exists out, merge list_set cur target = Ok out.
Proof.
  intros H. rewrite forallb_forall in H.
  apply (merge_complete list_set listing).
  - intros x Hx. destruct (numeric_label_key x (H x Hx)) as [ns E]. eauto.
  - intros x y kx ky Hx Hy Ex Ey.
    destruct (numeric_label_key x (H x Hx)) as [a Ea].
    destruct (numeric_label_key y (H y Hy)) as [b Eb].
    assert (kx = map TInt a) as -> by congruence.
    assert (ky = map TInt b) as -> by congruence.
    apply int_keys_comparable.
Qed.

End NumericMerge.

(** X6. On labels made of numbers and separators, no number longer than
    [int] converts, the merge step always returns, and its result is in
    ascending order of the numbers: all keys hold ints only, and ints
    compare. *)
Theorem merge_numeric_returns
  (list_set : list string -> list string)
  (cur : list string) (target : string) :
  set_listing list_set ->
  forallb numeric_label (cur ++ [target]) = true ->
  exists out,
    merge list_set cur target = Ok out /\
    StronglySorted version_le out /\
    Forall (fun x => exists ns, version_key x = Ok (map TInt ns)) out.
Proof.
  intros L H. destruct (merge_on_numbers list_set L cur target H) as [out E].
  exists out. split; [exact E|].
  destruct (merge_sound list_set _ _ _ E) as [_ S]. split; [exact S|].
  destruct (merge_elements list_set L _ _ _ E) as [_ I].
  rewrite forallb_forall in H. apply Forall_forall. intros x Hx.
  apply numeric_label_key, H. rewrite in_app_iff. simpl.
  apply I in Hx. destruct Hx as [Hx | ->]; auto.
Qed.

Lemma merge_numeric_returns_witness :
  set_listing reversed /\
  forallb numeric_label (["1.21.9"; "1.20-1"] ++ ["1.21.10"]) = true /\
  exists out,
    merge reversed ["1.21.9"; "1.20-1"] "1.21.10" = Ok out /\
    StronglySorted version_le out /\
    Forall (fun x => exists ns, version_key x = Ok (map TInt ns)) out.
Proof.
  split; [apply reversed_listing|]. split; [reflexivity|].
  exact (merge_numeric_returns reversed ["1.21.9"; "1.20-1"] "1.21.10"
           reversed_listing eq_refl).
Defined.

(** X7. When distinct labels have distinct keys the merged list depends
    on the set of prior versions only, not on their order or on
    repetitions in the list received, nor on the order the set is
    iterated in. *)
Theorem merge_depends_on_set
  (list_set list_set' : list string -> list string)
  (cur cur' : list string) (target : string) (out : list string) :
  set_listing list_set -> set_listing list_set' ->
  (forall x, In x cur <-> In x cur') ->
  (forall x y k, In x (cur ++ [target]) -> In y (cur ++ [target]) ->
     version_key x = Ok k -> version_key y = Ok k -> x = y) ->
  merge list_set cur target = Ok out ->
  merge list_set' cur' target = Ok out.
Proof.
  intros L L' Same inj H.
  destruct (merge_elements list_set L _ _ _ H) as [D I].
  destruct (merge_sound list_set _ _ _ H) as [P S].
  destruct (L' (cur' ++ [target])) as [D' I'].
  assert (Hin : forall x, In x out <-> In x (cur ++ [target])).
  { intros x. rewrite I, in_app_iff. simpl. intuition. }
  apply (sorted_of_sorted version_key); auto.
  - apply NoDup_Permutation; auto.
    intros x. rewrite I', in_app_iff, I, Same. simpl. intuition.
  - intros x Hx. apply (sorted_keys version_key _ _ H).
    apply (L (cur ++ [target])). now apply Hin.
  - intros x y k Hx Hy. apply inj; now apply Hin.
Qed.

Lemma merge_depends_on_set_witness :
  merge in_order ["1.21.9"; "1.20.1"] "1.21.10"
  = Ok ["1.20.1"; "1.21.9"; "1.21.10"] /\
  merge reversed ["1.20.1"; "1.21.9"; "1.20.1"] "1.21.10"
  = Ok ["1.20.1"; "1.21.9"; "1.21.10"].
Proof.
  split; [reflexivity|].
  apply (merge_depends_on_set in_order reversed
           ["1.21.9"; "1.20.1"] ["1.20.1"; "1.21.9"; "1.20.1"]);
    [apply in_order_listing | apply reversed_listing | | | reflexivity].
  - intros x. simpl. intuition.
  - simpl. intros x y k Hx Hy.
    repeat (destruct Hx as [<-|Hx]; try contradiction);
      repeat (destruct Hy as [<-|Hy]; try contradiction);
      vm_compute; intros E1 E2; try reflexivity;
      rewrite <- E2 in E1; discriminate E1.
Defined.

(* ================================================================== *)
(** ** Further properties of the loops *)

Lemma for_each_ext {A} (body body' : nat -> A -> M nat) (l : list A) :
  (forall t x s, body t x s = body' t x s) ->
  forall t s, for_each body l t s = for_each body' l t s.
Proof.
  intros H. induction l as [|x xs IH]; intros t s; simpl; [reflexivity|].
  unfold bindM. rewrite H. destruct (body' t x s) as [[t'|e] s']; auto.
Qed.

Lemma patched_ids_app (a b : list event) :
  patched_ids (a ++ b) = patched_ids a ++ patched_ids b.
Proof.
  induction a as [|[slug r|vid new r|] a IH]; simpl; congruence.
Qed.

Lemma fetched_slugs_app (a b : list event) :
  fetched_slugs (a ++ b) = fetched_slugs a ++ fetched_slugs b.
Proof.
  induction a as [|[slug r|vid new r|] a IH]; simpl; congruence.
Qed.

Lemma throttled_from_app (p : bool) (a b : list event) :
  throttled_from p a = true -> throttled b = true ->
  throttled_from p (a ++ b) = true.
Proof.
  unfold throttled. revert p; induction a as [|[slug r|vid new r|] a IH];
    intros p; simpl; intros Ha Hb.
  - destruct p; [discriminate | exact Hb].
  - apply andb_true_iff in Ha. destruct Ha as [-> Ha]. simpl. auto.
  - apply andb_true_iff in Ha. destruct Ha as [-> Ha]. simpl. auto.
  - apply andb_true_iff in Ha. destruct Ha as [-> Ha]. simpl. auto.
Qed.

Section MoreSteps.

Variable list_set : list string -> list string.
Variable w : world.
Variable target : string.
Variable h : headers.

(** The trace grows by requests for release lists and by writes followed
    by a pause, and by nothing else: a property of traces that holds of
    the trace so far and is kept by these two extensions holds after the
    project loop, however it ends. *)
Lemma projects_trace (I : list event -> Prop) :
  (forall tr slug r, I tr -> I (tr ++ [Get slug r])) ->
  (forall tr vid new r, I tr -> I (tr ++ [Patch vid new r; Sleep])) ->
  forall l total s, I (trace s) ->
  post (for_each (update_project list_set w target h) l total s)
       (fun _ s' => I (trace s')) (fun _ s' => I (trace s')).
Proof.
  intros HG HP l. apply post_for_each.
  intros [slug labels] t s _ Hs. rewrite update_project_eq. cbv zeta.
  destruct (requests_get w (trace s) slug h) as [[|v rs]|e]; simpl; auto.
  eapply post_bind.
  - apply (post_for_each _ _ (fun _ s' => I (trace s'))
             (fun _ s' => I (trace s'))).
    + intros x t0 s0 _ H0. rewrite update_release_eq.
      destruct (mem target (game_versions x)); simpl; auto.
      destruct (merge list_set (game_versions x) target); simpl; auto.
    + simpl. auto.
  - intros t' s' Hs'. exact Hs'.
Qed.

(** The release loop, when it returns, has written once to every release
    that lacks the target, in list order, and has counted the writes the
    catalog accepted. *)
Lemma releases_written (vs : list release) (total : nat) (s : state)
  (t : nat) (s' : state) :
  for_each (update_release list_set w target h) vs total s = (Ok t, s') ->
  patched_ids (trace s')
  = patched_ids (trace s) ++ map id (filter (lacks target) vs) /\
  t + successes (trace s) = total + successes (trace s').
Proof.
  revert total s; induction vs as [|v vs IH]; simpl; intros total s H.
  - injection H as <- <-. now rewrite app_nil_r.
  - unfold bindM in H. rewrite update_release_eq in H. unfold lacks at 1.
    destruct (mem target (game_versions v)); simpl in *.
    + destruct (IH _ _ H) as [E1 E2]. simpl in *. auto.
    + destruct (merge list_set (game_versions v) target) as [new|e];
        [|discriminate].
      destruct (IH _ _ H) as [E1 E2]. simpl in *.
      rewrite E1, patched_ids_app. simpl. rewrite <- app_assoc. split; auto.
      rewrite successes_app in E2. simpl in E2.
      destruct (requests_patch w (trace s) (id v) new h); simpl in E2; lia.
Qed.

End MoreSteps.

(** X8. A project whose list of releases is empty, or holds no release
    with a configured label, costs one request and nothing else: no
    write, the counter unchanged.  An empty list is passed over without
    a word; for a list without a match the labels looked for are
    printed. *)
Theorem project_without_match
  (list_set : list string -> list string) (w : world) (target : string)
  (h : headers) (total : nat) (slug : string) (labels : list string)
  (s : state) (rs : list release) :
  requests_get w (trace s) slug h = Success rs ->
  select labels rs = [] ->
  update_project list_set w target h total (slug, labels) s =
  (Ok total,
   {| trace := trace s ++ [Get slug (Success rs)];
      stdout := stdout s
                ++ ProcessingLine slug
                :: match rs with
                   | [] => []
                   | _ => [NoMatchingLine slug labels; Text msg_rule]
                   end |}).
Proof.
  intros Hr Hs. rewrite update_project_eq. cbv zeta. rewrite Hr.
  destruct rs as [|v rs]; [reflexivity|].
  rewrite Hs. cbv [bindM for_each ret print]. cbn [trace stdout].
  rewrite <- app_assoc. reflexivity.
Qed.

Lemma project_without_match_witness :
  requests_get nothing_to_do [] "other" [] =
    Success [a_release "id30" "3.0" ["1.19.4"]] /\
  select ["1.0"] [a_release "id30" "3.0" ["1.19.4"]] = [] /\
  update_project in_order nothing_to_do "1.20.1" [] 0 ("other", ["1.0"])
    initial
  = (Ok 0,
     {| trace := [Get "other" (Success [a_release "id30" "3.0" ["1.19.4"]])];
        stdout := [ProcessingLine "other";
                   NoMatchingLine "other" ["1.0"]; Text msg_rule] |}).
Proof.
  split; [reflexivity|]. split; [reflexivity|].
  exact (project_without_match in_order nothing_to_do "1.20.1" [] 0 "other"
           ["1.0"] initial _ eq_refl eq_refl).
Defined.

(** X9. When the pass over a project returns, it has written exactly
    once to each release that bears a configured label and lacks the
    target, in catalog order, whether or not earlier writes were
    accepted; and the counter has grown by the number of accepted
    writes. *)
Theorem project_writes_exactly
  (list_set : list string -> list string) (w : world) (target : string)
  (h : headers) (total : nat) (slug : string) (labels : list string)
  (s : state) (rs : list release) (t : nat) (s' : state) :
  requests_get w (trace s) slug h = Success rs ->
  update_project list_set w target h total (slug, labels) s = (Ok t, s') ->
  patched_ids (trace s')
  = patched_ids (trace s)
    ++ map id (filter (lacks target) (select labels rs)) /\
  t + successes (trace s) = total + successes (trace s').
Proof.
  intros Hr. rewrite update_project_eq. cbv zeta. rewrite Hr.
  destruct rs as [|v rs].
  - intros H. injection H as <- <-. simpl.
    rewrite patched_ids_app, successes_app. simpl.
    rewrite !app_nil_r. split; [reflexivity | lia].
  - unfold bindM at 1.
    destruct (for_each _ _ _ _) as [[t0|e] s0] eqn:E; [|discriminate].
    cbv [bindM print ret]. intros H. injection H as <- <-.
    apply releases_written in E. cbn [trace] in *.
    rewrite patched_ids_app, successes_app in E. simpl in E.
    rewrite app_nil_r in E. destruct E as [E1 E2]. split; [exact E1 | lia].
Qed.

Lemma project_writes_exactly_witness :
  requests_get two_projects [] "modA" [] = three_releases "modA" /\
  exists t s',
    update_project in_order two_projects "1.20.1" [] 0
      ("modA", ["1.0"; "2.0"]) initial = (Ok t, s') /\
    patched_ids (trace s') = ["id10"; "id20"] /\
    t = 1.
Proof.
  split; [reflexivity|].
  destruct (update_project in_order two_projects "1.20.1" [] 0
              ("modA", ["1.0"; "2.0"]) initial) as [r s'] eqn:E.
  assert (E' := E). vm_compute in E'. injection E' as <- <-.
  eexists. eexists. split; [reflexivity|].
  destruct (project_writes_exactly in_order two_projects "1.20.1" [] 0
              "modA" ["1.0"; "2.0"] initial _ _ _ eq_refl E) as [P T].
  split; [exact P|]. reflexivity.
Defined.

(* ================================================================== *)
(** ** Further properties of a run *)

Section MoreRuns.

Variable list_set : list string -> list string.
Variable w : world.

(** [main] once the startup checks have passed. *)
Lemma main_started (target : string) (c : config) :
  startup_ok w target c ->
  exists tok,
    MODRINTH_TOKEN w = Some tok /\ tok <> EmptyString /\
    main list_set w initial =
    match c with
    | [] => (Raise (SystemExit 0),
             {| trace := [];
                stdout := [Text msg_start; Text msg_no_projects] |})
    | _ =>
        (t <~ for_each (update_project list_set w target (auth_headers tok))
                c 0 ;;
         print (DoneLine t))
          {| trace := []; stdout := [Text msg_start; TargetLine target] |}
    end.
Proof.
  intros (Hargv & Htarget & (tok & Htok & Hne) & Hcfg).
  exists tok. repeat split; auto.
  unfold main. apply Nat.ltb_ge in Hargv. rewrite Hargv, Htarget.
  unfold get_auth_headers, load_config. rewrite Htok, Hcfg.
  destruct tok as [|ch tok]; [congruence|].
  destruct c; reflexivity.
Qed.

(** Either the startup checks pass, or the run stops with status 1
    before any request. *)
Lemma run_cases :
  (exists target c, startup_ok w target c) \/
  (fst (run list_set w) = 1%Z /\ trace (snd (run list_set w)) = []).
Proof.
  unfold run, main, startup_ok, get_auth_headers, load_config.
  destruct (Nat.ltb_spec (List.length (argv w)) 2) as [L|G]; [now right|].
  destruct (MODRINTH_TOKEN w) as [[|ch tok]|]; [now right | | now right].
  destruct (main_json w) as [| |c]; [now right | now right |].
  left. exists (nth 1 (argv w) EmptyString), c.
  repeat split; auto. eexists. split; [reflexivity | discriminate].
Qed.

(** Any property of traces that holds of the empty trace and is kept by
    a request for releases and by a write followed by a pause holds of
    the trace of every run. *)
Lemma run_trace (I : list event -> Prop) :
  I [] ->
  (forall tr slug r, I tr -> I (tr ++ [Get slug r])) ->
  (forall tr vid new r, I tr -> I (tr ++ [Patch vid new r; Sleep])) ->
  I (trace (snd (run list_set w))).
Proof.
  intros H0 HG HP.
  destruct run_cases as [(target & c & S) | [_ ->]]; [|exact H0].
  destruct (main_started target c S) as (tok & _ & _ & E).
  unfold run. rewrite E. destruct c as [|item c']; [exact H0|].
  pose proof (projects_trace list_set w target (auth_headers tok) I HG HP
                (item :: c') 0
                {| trace := []; stdout := [Text msg_start; TargetLine target] |}
                H0) as P.
  unfold bindM. destruct (for_each _ _ _ _) as [[t|e] s']; simpl in *; auto.
Qed.

End MoreRuns.

(** X10. With a configuration that names no project the run prints that
    there is nothing to update and ends with status 0, without a request
    and without a summary line. *)
Theorem empty_config_exits_zero
  (list_set : list string -> list string) (w : world) (target : string) :
  startup_ok w target [] ->
  run list_set w =
  (0%Z, {| trace := [];
           stdout := [Text msg_start; Text msg_no_projects] |}).
Proof.
  intros S. destruct (main_started list_set w target [] S) as (tok & _ & _ & E).
  unfold run. now rewrite E.
Qed.

Lemma empty_config_exits_zero_witness :
  startup_ok no_projects "1.20.1" [] /\
  run in_order no_projects =
  (0%Z, {| trace := [];
           stdout := [Text msg_start; Text msg_no_projects] |}).
Proof.
  split; [apply startup_ok_fixed|].
  exact (empty_config_exits_zero in_order no_projects "1.20.1"
           (startup_ok_fixed _ _ _ _)).
Defined.

(** X11. In every run, whatever the world, each write request is
    followed at once by the pause, also when the write was refused, and
    the script pauses at no other moment. *)
Theorem run_throttled (list_set : list string -> list string) (w : world) :
  throttled (trace (snd (run list_set w))) = true.
Proof.
  apply (run_trace list_set w (fun tr => throttled tr = true)).
  - reflexivity.
  - intros tr slug r H. now apply throttled_from_app.
  - intros tr vid new r H. now apply throttled_from_app.
Qed.

Section Outcomes.

Variable list_set : list string -> list string.
Variable w : world.
Variable target : string.
Variable h : headers.

Lemma update_project_fetched (total : nat) (slug : string)
  (labels : list string) (s : state) :
  fetched_slugs
    (trace (snd (update_project list_set w target h total (slug, labels) s)))
  = fetched_slugs (trace s) ++ [slug].
Proof.
  pose proof (projects_trace list_set w target h
                (fun tr => fetched_slugs tr
                           = fetched_slugs (trace s) ++ [slug])) as P.
  rewrite update_project_eq. cbv zeta.
  destruct (requests_get w (trace s) slug h) as [[|v rs]|e]; simpl;
    try (rewrite fetched_slugs_app; reflexivity).
  set (s1 := {| trace := trace s ++ [Get slug (Success (v :: rs))];
                stdout := _ |}).
  assert (H1 : fetched_slugs (trace s1) = fetched_slugs (trace s) ++ [slug])
    by (simpl; rewrite fetched_slugs_app; reflexivity).
  assert (R : post (for_each (update_release list_set w target h)
                      (select labels (v :: rs)) total s1)
                (fun _ s' => fetched_slugs (trace s')
                             = fetched_slugs (trace s) ++ [slug])
                (fun _ s' => fetched_slugs (trace s')
                             = fetched_slugs (trace s) ++ [slug])).
  { apply (post_for_each _ _
             (fun _ s' => fetched_slugs (trace s')
                          = fetched_slugs (trace s) ++ [slug])); [|exact H1].
    intros x t0 s0 _ H0. rewrite update_release_eq.
    destruct (mem target (game_versions x)); simpl; auto.
    destruct (merge list_set (game_versions x) target); simpl; auto.
    rewrite fetched_slugs_app. simpl. now rewrite app_nil_r. }
  unfold bindM. destruct (for_each _ _ _ _) as [[t|e] s']; simpl in *; auto.
Qed.

(** The project loop asks for the projects in list order, one request
    each, up to the point where it ends. *)
Lemma projects_fetched (l : config) (total : nat) (s : state) :
  exists rest,
    fetched_slugs (trace s) ++ map fst l
    = fetched_slugs
        (trace (snd (for_each (update_project list_set w target h) l total s)))
      ++ rest /\
    (forall t,
       fst (for_each (update_project list_set w target h) l total s) = Ok t ->
       rest = []).
Proof.
  revert total s; induction l as [|[slug labels] l IH]; intros total s.
  - exists []. simpl. now rewrite !app_nil_r.
  - cbn [for_each map fst]. unfold bindM.
    pose proof (update_project_fetched total slug labels s) as F.
    destruct (update_project list_set w target h total (slug, labels) s)
      as [[t'|e] s'] eqn:E; simpl in F.
    + destruct (IH t' s') as [rest [E1 E2]]. exists rest. split; [|exact E2].
      rewrite <- E1, F, <- app_assoc. reflexivity.
    + exists (map fst l). simpl. split; [|discriminate].
      rewrite F, <- app_assoc. reflexivity.
Qed.

Variable c : config.

Lemma update_project_blamed (total : nat) (item : string * list string)
  (s : state) :
  In item c ->
  post (update_project list_set w target h total item s)
       (fun _ _ => True)
       (fun e s' => blamed list_set c target (trace s') e).
Proof.
  destruct item as [slug labels]. intros Hc.
  rewrite update_project_eq. cbv zeta.
  destruct (requests_get w (trace s) slug h) as [[|v rs]|e] eqn:Hr; simpl;
    auto.
  eapply post_bind.
  - apply (post_for_each _ _
             (fun _ s' => In (Get slug (Success (v :: rs))) (trace s'))).
    + intros x t0 s0 Hx H0. rewrite update_release_eq.
      destruct (mem target (game_versions x)) eqn:Hm; simpl; auto.
      destruct (merge list_set (game_versions x) target) as [new|e]
        eqn:Hmerge; simpl.
      * apply in_or_app. now left.
      * exists slug, labels, (v :: rs), x. repeat split; auto.
    + simpl. apply in_or_app. right. now left.
  - intros t' s' _. exact I.
Qed.

Lemma projects_blamed (l : config) (total : nat) (s : state) :
  incl l c ->
  post (for_each (update_project list_set w target h) l total s)
       (fun _ _ => True)
       (fun e s' => blamed list_set c target (trace s') e).
Proof.
  intros Hl. apply (post_for_each _ _ (fun _ _ => True)); [|exact I].
  intros x t s0 Hx _. apply update_project_blamed. now apply Hl.
Qed.

(** With a catalog of numeric labels and a numeric target the project
    loop never raises. *)
Lemma projects_safe (l : config) (total : nat) (s : state) :
  set_listing list_set ->
  numeric_label target = true ->
  numeric_catalog w ->
  post (for_each (update_project list_set w target h) l total s)
       (fun _ _ => True) (fun _ _ => False).
Proof.
  intros L Ht Hw. apply (post_for_each _ _ (fun _ _ => True)); [|exact I].
  intros [slug labels] t s0 _ _. rewrite update_project_eq. cbv zeta.
  destruct (requests_get w (trace s0) slug h) as [[|v rs]|e] eqn:Hr;
    try exact I.
  remember (v :: rs) as rs0 eqn:Ers. unfold post at 1.
  eapply post_bind.
  - apply (post_for_each _ _ (fun _ _ => True)); [|exact I].
    intros x t1 s1 Hx _. rewrite update_release_eq.
    destruct (mem target (game_versions x)); [exact I|].
    destruct (merge_on_numbers list_set L (game_versions x) target)
      as [out E].
    + rewrite forallb_app. simpl. rewrite Ht, andb_true_r.
      apply forallb_forall. intros y Hy.
      apply (Hw (trace s0) slug h rs0 x y Hr); auto.
      unfold select in Hx. apply filter_In in Hx. tauto.
    + rewrite E. exact I.
  - intros t' s' _. exact I.
Qed.

End Outcomes.

Lemma blamed_kind (list_set : list string -> list string) (c : config)
  (target : string) (tr : list event) (e : exn) :
  blamed list_set c target tr e -> e = TypeError \/ e = ValueError.
Proof.
  intros (slug & labels & rs & v & _ & _ & _ & _ & H).
  eapply merge_raises_kind; eassumption.
Qed.

(** X12. A run asks for the releases of the configured projects in the
    order of the configuration, once each: the projects asked for are an
    initial stretch of the configured ones, and all of them when the run
    ends with status 0. *)
Theorem projects_fetched_in_order
  (list_set : list string -> list string) (w : world)
  (target : string) (c : config) :
  startup_ok w target c ->
  exists rest,
    map fst c = fetched_slugs (trace (snd (run list_set w))) ++ rest /\
    (fst (run list_set w) = 0%Z -> rest = []).
Proof.
  intros S. destruct (main_started list_set w target c S) as (tok & _ & _ & E).
  unfold run. rewrite E. destruct c as [|item c']; [now exists []|].
  set (s0 := {| trace := []; stdout := _ |}).
  destruct (projects_fetched list_set w target (auth_headers tok)
              (item :: c') 0 s0) as [rest [E1 E2]].
  pose proof (projects_blamed list_set w target (auth_headers tok)
                (item :: c') (item :: c') 0 s0 (incl_refl _)) as B.
  unfold bindM.
  destruct (for_each _ _ _ _) as [[t|e] s'] eqn:L; simpl in *.
  - exists rest. split; [exact E1|]. intros _. now apply (E2 t).
  - exists rest. split; [exact E1|].
    destruct (blamed_kind _ _ _ _ _ B) as [-> | ->]; discriminate.
Qed.

Lemma projects_fetched_in_order_witness :
  startup_ok two_projects "1.20.1"
    [("modB", ["0.1"]); ("modA", ["1.0"; "2.0"])] /\
  fetched_slugs (trace (snd (run in_order two_projects))) = ["modB"; "modA"] /\
  exists rest,
    map fst [("modB", ["0.1"]); ("modA", ["1.0"; "2.0"])]
    = fetched_slugs (trace (snd (run in_order two_projects))) ++ rest /\
    (fst (run in_order two_projects) = 0%Z -> rest = []).
Proof.
  split; [apply startup_ok_fixed|]. split; [reflexivity|].
  exact (projects_fetched_in_order in_order two_projects "1.20.1" _
           (startup_ok_fixed _ _ _ _)).
Defined.

(** X13. The ways a run can end once the startup checks have passed:
    with status 0, either at once on an empty configuration or after the
    summary line, whose number is the number of writes the catalog
    accepted; or with status 1, and then because of a release that was
    fetched for a configured project, bears a configured label, lacks the
    target, and whose versions cannot be merged with the target
    ([TypeError] or [ValueError]).  Refused writes and projects that
    cannot be listed never change the status. *)
Theorem run_outcome
  (list_set : list string -> list string) (w : world)
  (target : string) (c : config) :
  startup_ok w target c ->
  (fst (run list_set w) = 0%Z /\
   ((c = [] /\ trace (snd (run list_set w)) = []) \/
    exists pre,
      stdout (snd (run list_set w))
      = pre ++ [DoneLine (successes (trace (snd (run list_set w))))])) \/
  (fst (run list_set w) = 1%Z /\
   exists e,
     (e = TypeError \/ e = ValueError) /\
     blamed list_set c target (trace (snd (run list_set w))) e).
Proof.
  intros S. destruct (main_started list_set w target c S) as (tok & _ & _ & E).
  unfold run. rewrite E. destruct c as [|item c']; [left; simpl; auto|].
  set (s0 := {| trace := []; stdout := _ |}).
  pose proof (projects_blamed list_set w target (auth_headers tok)
                (item :: c') (item :: c') 0 s0 (incl_refl _)) as B.
  pose proof (projects_tally list_set w target (auth_headers tok) 0 0
                (item :: c') 0 s0 eq_refl) as T.
  unfold bindM.
  destruct (for_each _ _ _ _) as [[t|e] s'] eqn:L; simpl in *.
  - left. split; [reflexivity|]. right. exists (stdout s').
    unfold tally in T. repeat f_equal. lia.
  - right. pose proof (blamed_kind _ _ _ _ _ B) as K.
    split; [destruct K as [-> | ->]; reflexivity|]. exists e. auto.
Qed.

Lemma run_outcome_witness :
  startup_ok two_projects "1.20.1"
    [("modB", ["0.1"]); ("modA", ["1.0"; "2.0"])] /\
  fst (run in_order two_projects) = 0%Z /\
  successes (trace (snd (run in_order two_projects))) = 1.
Proof.
  split; [apply startup_ok_fixed|].
  destruct (run_outcome in_order two_projects "1.20.1" _
              (startup_ok_fixed _ _ _ _)) as [[Z _] | [Z _]].
  - split; [exact Z | reflexivity].
  - discriminate Z.
Defined.

(** X14. When the target and every version the catalog returns are made
    of numbers and separators, no number longer than [int] converts, a
    run that passed the startup checks ends with status 0, and with the
    summary line unless the configuration is empty, however many writes
    were refused. *)
Theorem numeric_run_exits_zero
  (list_set : list string -> list string) (w : world)
  (target : string) (c : config) :
  set_listing list_set ->
  startup_ok w target c ->
  numeric_label target = true ->
  numeric_catalog w ->
  fst (run list_set w) = 0%Z /\
  (c <> [] ->
   exists pre,
     stdout (snd (run list_set w))
     = pre ++ [DoneLine (successes (trace (snd (run list_set w))))]).
Proof.
  intros L S Ht Hw.
  destruct (main_started list_set w target c S) as (tok & _ & _ & E).
  unfold run. rewrite E.
  destruct c as [|item c']; [split; [reflexivity | congruence]|].
  set (s0 := {| trace := []; stdout := _ |}).
  pose proof (projects_safe list_set w target (auth_headers tok)
                (item :: c') 0 s0 L Ht Hw) as P.
  pose proof (projects_tally list_set w target (auth_headers tok) 0 0
                (item :: c') 0 s0 eq_refl) as T.
  unfold bindM.
  destruct (for_each _ _ _ _) as [[t|e] s'] eqn:Lp; simpl in *;
    [|contradiction].
  split; [reflexivity|]. intros _. exists (stdout s').
  unfold tally in T. repeat f_equal. lia.
Qed.

Lemma numeric_run_exits_zero_witness :
  set_listing reversed /\
  startup_ok two_projects "1.20.1"
    [("modB", ["0.1"]); ("modA", ["1.0"; "2.0"])] /\
  numeric_label "1.20.1" = true /\
  numeric_catalog two_projects /\
  fst (run reversed two_projects) = 0%Z.
Proof.
  assert (N : numeric_catalog two_projects).
  { intros past slug h rs v x. simpl. unfold three_releases.
    destruct (String.eqb slug "modA"); [|discriminate].
    intros E. injection E as <-.
    intros [<-|[<-|[<-|[]]]] [<-|[]]; reflexivity. }
  split; [apply reversed_listing|]. split; [apply startup_ok_fixed|].
  split; [reflexivity|]. split; [exact N|].
  exact (proj1 (numeric_run_exits_zero reversed two_projects "1.20.1" _
                  reversed_listing (startup_ok_fixed _ _ _ _) eq_refl N)).
Defined.

Lemma headers_eqb_refl (h : headers) : headers_eqb h h = true.
Proof.
  induction h as [|[k v] h IH]; simpl; [reflexivity|].
  now rewrite !String.eqb_refl, IH.
Qed.

Lemma update_project_expecting
  (list_set : list string -> list string) (w : world) (target : string)
  (h : headers) (total : nat) (item : string * list string) (s : state) :
  update_project list_set (expecting h w) target h total item s
  = update_project list_set w target h total item s.
Proof.
  destruct item as [slug labels]. rewrite !update_project_eq. cbv zeta.
  cbn [requests_get expecting]. rewrite headers_eqb_refl.
  destruct (requests_get w (trace s) slug h) as [[|v rs]|e]; try reflexivity.
  unfold bindM at 1 3.
  rewrite (for_each_ext (update_release list_set (expecting h w) target h)
             (update_release list_set w target h)); [reflexivity|].
  intros t x s0. rewrite !update_release_eq.
  cbn [requests_patch expecting]. now rewrite headers_eqb_refl.
Qed.

(** X15. Every request of a run, reading or writing, carries exactly the
    three headers built at startup, with the token of the environment as
    bearer: the run is the same against a catalog that turns down every
    request with other headers. *)
Theorem requests_carry_auth_headers
  (list_set : list string -> list string) (w : world) (tok : string) :
  MODRINTH_TOKEN w = Some tok ->
  run list_set (expecting (auth_headers tok) w) = run list_set w.
Proof.
  intros Htok. unfold run, main, get_auth_headers, load_config.
  cbn [argv MODRINTH_TOKEN main_json expecting]. rewrite Htok.
  destruct (List.length (argv w) <? 2)%nat; [reflexivity|].
  destruct tok as [|ch tok]; [reflexivity|].
  destruct (main_json w) as [| |c]; try reflexivity.
  destruct c as [|item c']; [reflexivity|].
  change [("Authorization", ("Bearer " ++ String ch tok)%string);
          ("User-Agent", "AutomatedVersionUpdater/1.2");
          ("Content-Type", "application/json")]
    with (auth_headers (String ch tok)).
  cbv [bindM print ret initial]. cbn [trace stdout app].
  rewrite (for_each_ext
             (update_project list_set
                (expecting (auth_headers (String ch tok)) w)
                (nth 1 (argv w) EmptyString) (auth_headers (String ch tok)))
             (update_project list_set w
                (nth 1 (argv w) EmptyString) (auth_headers (String ch tok))));
    [reflexivity|].
  intros t x s. apply update_project_expecting.
Qed.

Lemma requests_carry_auth_headers_witness :
  MODRINTH_TOKEN scenario = Some "token" /\
  auth_headers "token" =
  [("Authorization", "Bearer token");
   ("User-Agent", "AutomatedVersionUpdater/1.2");
   ("Content-Type", "application/json")] /\
  run in_order (expecting (auth_headers "token") scenario)
  = run in_order scenario.
Proof.
  split; [reflexivity|]. split; [reflexivity|].
  exact (requests_carry_auth_headers in_order scenario "token" eq_refl).
Defined.
